(** * Engagement ledger and catalog reconciler of the panda gallery

    A shallow embedding of the gallery server ([/data/:id], [/view],
    [/heart], [/register]), of the image checker [tools/fix-images.js]
    ([checkUrl], [extractImageContainers], the two de-duplication passes of
    [main] and its [views.json] update) and of the reconciler script that
    aligns [views.json] with the ids found in [index.html].

    Modelling conventions.
    - A JavaScript object used as a dictionary ([data], [users], [views]) is
      a finite map [gmap string _]; property lookup is own-property lookup,
      so identifiers are assumed not to collide with names inherited from
      [Object.prototype].  A [Set] of strings is a [gset string].
    - Strings are sequences of 8-bit code units; positions are [nat].
    - Counters are integers ([Z]); JavaScript arithmetic on them is exact
      below 2^53.
    - A header or body field that may be missing is an [option string];
      [truthy] is the JavaScript test [if (x)] on it. *)

From Stdlib Require Import ZArith Ascii String.
From stdpp Require Import base tactics option list gmap sets strings.

Local Open Scope Z_scope.

(* ===================================================================== *)
(** * Part I: definitions *)
(* ===================================================================== *)

(** ** JavaScript values shared by the scripts *)

Module JS.

(** [if (x)] for a value that is either [undefined] or a string. *)
Definition truthy (x : option string) : bool :=
  match x with
  | Some s => bool_decide (s ≠ EmptyString)
  | None => false
  end.

(** [n || 0] on a number. *)
Definition or0 (n : Z) : Z := if decide (n = 0) then 0 else n.

(** [Array.from(new Set(l))]: the elements of [l] in order of first
    occurrence. *)
Definition array_from_set (l : list string) : list string :=
  fold_left (λ acc x, if decide (x ∈ acc) then acc else acc ++ [x]) l [].

End JS.

(** ** The gallery server *)

Module Ledger.
Import JS.

(** [data[id]] at run time: [usersHearted] has been turned into a [Set] when
    the file was loaded, and every entry the server creates holds one. *)
Record entry := Entry {
  views : Z;
  hearts : Z;
  usersHearted : gset string
}.

(** [users[username]]. *)
Record user := User {
  email : string;
  password : string;
  viewed : list string;
  hearted : list string
}.

(** The two in-memory objects and the last contents written to
    [views.json] and [users.json] ([None]: not written so far). *)
Record state := State {
  data : gmap string entry;
  users : gmap string user;
  viewsFile : option (gmap string entry);
  usersFile : option (gmap string user)
}.

Definition initial : state := State ∅ ∅ None None.

Definition set_data (d : gmap string entry) (s : state) : state :=
  State d (users s) (viewsFile s) (usersFile s).
Definition set_users (u : gmap string user) (s : state) : state :=
  State (data s) u (viewsFile s) (usersFile s).

(** [saveData()] and [saveUsers()]: the whole object is written. *)
Definition saveData (s : state) : state :=
  State (data s) (users s) (Some (data s)) (usersFile s).
Definition saveUsers (s : state) : state :=
  State (data s) (users s) (viewsFile s) (Some (users s)).

Definition zero_entry : entry := Entry 0 0 ∅.

(** [if (!data[id]) data[id] = { views: 0, hearts: 0, usersHearted: new Set() }] *)
Definition ensure (id : string) (d : gmap string entry) : gmap string entry :=
  match d !! id with
  | Some _ => d
  | None => <[id := zero_entry]> d
  end.

(** The JSON body of an answer; a field that is [undefined] or not set is
    left out of the body ([None]). *)
Record body := Body {
  b_views : Z;
  b_hearts : Z;
  b_userHasHearted : bool;
  b_userHasViewed : option bool
}.

Inductive response :=
| Json (b : body)
| Success (userId : option string)
| Failure (status : Z)
| Counters (out : gmap string entry).

Definition entry_at (id : string) (d : gmap string entry) : entry :=
  default zero_entry (d !! id).

(** [userId ? data[id].usersHearted.has(userId) : false] *)
Definition has_hearted (userId : option string) (e : entry) : bool :=
  match userId with
  | Some u => if truthy userId then bool_decide (u ∈ usersHearted e) else false
  | None => false
  end.

(** [userId ? (users[userId] && users[userId].viewed.includes(id)) : false] *)
Definition has_viewed (userId : option string) (id : string)
    (us : gmap string user) : option bool :=
  match userId with
  | Some u =>
      if truthy userId then
        match us !! u with
        | Some r => Some (bool_decide (id ∈ viewed r))
        | None => None
        end
      else Some false
  | None => Some false
  end.

(** [app.get('/data/:id')] *)
Definition get_data (id : string) (userId : option string) (s : state)
    : state * response :=
  let d := ensure id (data s) in
  let e := entry_at id d in
  (set_data d s,
   Json (Body (or0 (views e)) (or0 (hearts e))
              (has_hearted userId e) (has_viewed userId id (users s)))).

Definition add_view (e : entry) : entry :=
  Entry (or0 (views e) + 1) (hearts e) (usersHearted e).

Definition push_viewed (id : string) (r : user) : user :=
  User (email r) (password r) (viewed r ++ [id]) (hearted r).

(** The signed-in user of a request: [userId && users[userId]]. *)
Definition signed_in (userId : option string) (us : gmap string user)
    : option (string * user) :=
  match userId with
  | Some u => if truthy userId then (λ r, (u, r)) <$> us !! u else None
  | None => None
  end.

(** [app.post('/view')] *)
Definition post_view (id userId : option string) (s : state)
    : state * response :=
  match id with
  | Some i =>
      if truthy id then
        let s0 := set_data (ensure i (data s)) s in
        let s1 :=
          match signed_in userId (users s0) with
          | Some (u, r) =>
              if decide (i ∈ viewed r) then s0
              else
                let s' := set_data (alter add_view i (data s0)) s0 in
                let s'' := set_users (<[u := push_viewed i r]> (users s')) s' in
                saveData (saveUsers s'')
          | None =>
              saveData (set_data (alter add_view i (data s0)) s0)
          end in
        let e := entry_at i (data s1) in
        (s1, Json (Body (or0 (views e)) (or0 (hearts e))
                        (has_hearted userId e) (has_viewed userId i (users s1))))
      else (s, Failure 400)
  | None => (s, Failure 400)
  end.

Definition set_hearted (l : list string) (r : user) : user :=
  User (email r) (password r) (viewed r) l.

Definition set_usersHearted (x : gset string) (e : entry) : entry :=
  Entry (views e) (hearts e) x.

Definition set_hearts (n : Z) (e : entry) : entry :=
  Entry (views e) n (usersHearted e).

(** [app.post('/heart')] *)
Definition post_heart (id userId : option string) (s : state)
    : state * response :=
  match id with
  | Some i =>
      if truthy id then
        match signed_in userId (users s) with
        | Some (u, r) =>
            let d0 := ensure i (data s) in
            let usersSet := usersHearted (entry_at i d0) in
            let has := bool_decide (u ∈ usersSet) in
            let usersSet' :=
              if has then usersSet ∖ {[u]} else usersSet ∪ {[u]} in
            let hearted' :=
              if has then filter (λ x, x ≠ i) (hearted r)
              else array_from_set (hearted r ++ [i]) in
            let us' := <[u := set_hearted hearted' r]> (users s) in
            let d1 := alter (set_usersHearted usersSet') i d0 in
            let d2 := alter (set_hearts (Z.of_nat (size usersSet'))) i d1 in
            let s' := saveData (saveUsers (State d2 us' (viewsFile s) (usersFile s))) in
            let e := entry_at i d2 in
            (s', Json (Body (or0 (views e)) (or0 (hearts e))
                            (bool_decide (u ∈ usersSet')) None))
        | None => (s, Failure 401)
        end
      else (s, Failure 400)
  | None => (s, Failure 400)
  end.

(** [app.post('/register')] *)
Definition post_register (username email password : option string) (s : state)
    : state * response :=
  match username, email, password with
  | Some u, Some e, Some p =>
      if truthy username && truthy email && truthy password then
        match users s !! u with
        | Some _ => (s, Failure 409)
        | None =>
            (saveUsers (set_users (<[u := User e p [] []]> (users s)) s),
             Success None)
        end
      else (s, Failure 400)
  | _, _, _ => (s, Failure 400)
  end.

(** [app.post('/login')]; a missing [username] is looked up as the property
    [undefined]. *)
Definition post_login (username email password : option string) (s : state)
    : state * response :=
  match users s !! default "undefined" username with
  | Some r =>
      if bool_decide (Some (Ledger.password r) = password
                      ∧ Some (Ledger.email r) = email)
      then (s, Success username) else (s, Failure 401)
  | None => (s, Failure 401)
  end.

(** [app.get('/views.json')] *)
Definition get_views (s : state) : state * response :=
  (s, Counters ((λ e, Entry (views e) (hearts e) (usersHearted e)) <$> data s)).

Inductive request :=
| Register (username email password : option string)
| Login (username email password : option string)
| GetViews
| GetData (id : string) (userId : option string)
| View (id userId : option string)
| Heart (id userId : option string).

Definition handle (r : request) (s : state) : state * response :=
  match r with
  | Register u e p => post_register u e p s
  | Login u e p => post_login u e p s
  | GetViews => get_views s
  | GetData i u => get_data i u s
  | View i u => post_view i u s
  | Heart i u => post_heart i u s
  end.

(** The state after serving the requests one after the other. *)
Definition serve (rs : list request) (s : state) : state :=
  fold_left (λ s r, (handle r s).1) rs s.

Definition recordUserView (id u : string) : state → state * response :=
  post_view (Some id) (Some u).
Definition toggleHeart (id u : string) : state → state * response :=
  post_heart (Some id) (Some u).

Definition viewCount (id : string) (s : state) : Z := views (entry_at id (data s)).
Definition heartCount (id : string) (s : state) : Z := hearts (entry_at id (data s)).
Definition heartedBy (id : string) (s : state) : gset string :=
  usersHearted (entry_at id (data s)).

(** The set and the list a heart toggle that passes the checks leaves for
    the user [u] and the id [i]. *)
Definition toggled_set (u : string) (x : gset string) : gset string :=
  if bool_decide (u ∈ x) then x ∖ {[u]} else x ∪ {[u]}.

Definition toggled_list (u i : string) (x : gset string) (l : list string)
    : list string :=
  if bool_decide (u ∈ x) then filter (λ y, y ≠ i) l
  else array_from_set (l ++ [i]).

Definition entry_consistent (e : entry) : Prop :=
  hearts e = Z.of_nat (size (usersHearted e)).

(** [heartCount == |heartedBy|] for every entry of the ledger. *)
Definition hearts_consistent (s : state) : Prop :=
  ∀ id e, data s !! id = Some e → hearts e = Z.of_nat (size (usersHearted e)).

(** [id ∈ user.heartedItems ⟺ user.identifier ∈ ledger[id].heartedBy]
    for every registered user and every id. *)
Definition mirrored (s : state) : Prop :=
  ∀ u r id, users s !! u = Some r → (id ∈ hearted r ↔ u ∈ heartedBy id s).

(** Every identifier in a [usersHearted] set is a registered user. *)
Definition hearted_by_registered (s : state) : Prop :=
  ∀ id u, u ∈ heartedBy id s → is_Some (users s !! u).

(** A store with one registered user, and the same store after that
    user's first view of an item. *)
Definition alice : user := User "alice@example.org" "bamboo" [] [].
Definition one_user : state := State ∅ {["alice" := alice]} None None.
Definition seen_once : state := (recordUserView "panda1" "alice" one_user).1.

End Ledger.

(** ** Strings and the regular expressions of the scripts *)

Module Str.

Definition code (c : ascii) : N := Ascii.N_of_ascii c.

(** [A-Z] to [a-z]: the case folding of the [i] flag that matters for the
    patterns of the scripts, whose letters are all ASCII. *)
Definition fold_case (c : ascii) : ascii :=
  if ((65 <=? code c) && (code c <=? 90))%N
  then Ascii.ascii_of_N (code c + 32) else c.

(** [toLowerCase] on one code unit below 256. *)
Definition lower_char (c : ascii) : ascii :=
  if ((65 <=? code c) && (code c <=? 90)
      || (192 <=? code c) && (code c <=? 222) && negb (code c =? 215))%N
  then Ascii.ascii_of_N (code c + 32) else c.

Fixpoint toLowerCase (s : string) : string :=
  match s with
  | EmptyString => EmptyString
  | String c s' => String (lower_char c) (toLowerCase s')
  end.

(** [s.startsWith(p)] *)
Definition startsWith (s p : string) : bool := String.prefix p s.

(** [\w], [\s] and the class of the two quote characters, written [q] in
    the patterns quoted below. *)
Definition is_word (c : ascii) : bool :=
  ((48 <=? code c) && (code c <=? 57) || (65 <=? code c) && (code c <=? 90)
   || (97 <=? code c) && (code c <=? 122) || (code c =? 95))%N.
Definition is_space (c : ascii) : bool :=
  ((9 <=? code c) && (code c <=? 13) || (code c =? 32) || (code c =? 160))%N.
Definition is_quote (c : ascii) : bool :=
  ((code c =? 34) || (code c =? 39))%N.

(** [s.slice(n)] and [s.slice(a, b)] for [a <= b]. *)
Fixpoint drop (n : nat) (s : string) : string :=
  match n, s with
  | S n', String _ s' => drop n' s'
  | _, _ => s
  end.
Definition slice (s : string) (a b : nat) : string :=
  String.substring a (b - a) s.

(** The literal [pat] read at the start of [s] under the [i] flag. *)
Fixpoint ci_prefix (pat s : string) : bool :=
  match pat, s with
  | EmptyString, _ => true
  | String a pat', String b s' =>
      bool_decide (fold_case a = fold_case b) && ci_prefix pat' s'
  | String _ _, EmptyString => false
  end.

(** The first position [p >= from] at which [P] accepts the rest of the
    string; [s] is the rest from position [pos] on. *)
Fixpoint find_at (P : string → bool) (s : string) (pos from : nat) : option nat :=
  if (from <=? pos)%nat && P s then Some pos
  else match s with
       | EmptyString => None
       | String _ s' => find_at P s' (S pos) from
       end.
Definition search (P : string → bool) (s : string) (from : nat) : option nat :=
  find_at P s 0 from.

(** [s.indexOf(pat, from)], [None] for [-1]. *)
Definition indexOf (s pat : string) (from : nat) : option nat :=
  search (String.prefix pat) s from.

(** The first rest of [s], from the left, on which [f] succeeds: an
    unanchored match. *)
Fixpoint first_match {A : Type} (f : string → option A) (s : string) : option A :=
  match f s with
  | Some a => Some a
  | None => match s with
            | EmptyString => None
            | String _ s' => first_match f s'
            end
  end.

(** [\s*] *)
Fixpoint skip_space (s : string) : string :=
  match s with
  | String c s' => if is_space c then skip_space s' else s
  | EmptyString => s
  end.

(** [[^q]*] followed by [[q]]: the characters up to the next quote, and
    what follows the quote. *)
Fixpoint quoted (s : string) : option (string * string) :=
  match s with
  | EmptyString => None
  | String c s' =>
      if is_quote c then Some (EmptyString, s')
      else match quoted s' with
           | Some (v, rest) => Some (String c v, rest)
           | None => None
           end
  end.

(** [\s*=\s*[q]]: what follows the opening quote. *)
Definition assign_space (s : string) : option string :=
  match skip_space s with
  | String eq s1 =>
      if bool_decide (eq = "="%char) then
        match skip_space s1 with
        | String q s2 => if is_quote q then Some s2 else None
        | EmptyString => None
        end
      else None
  | EmptyString => None
  end.

(** [=[q]]: what follows the opening quote. *)
Definition assign (s : string) : option string :=
  match s with
  | String eq (String q s2) =>
      if bool_decide (eq = "="%char) && is_quote q then Some s2 else None
  | _ => None
  end.

Definition next_is_word (s : string) : bool :=
  match s with
  | String c _ => is_word c
  | EmptyString => false
  end.

(** [\bw\b] somewhere in [v], which is followed by a non-word character;
    [prev] tells whether the character before [v] is a word character. *)
Fixpoint has_word (w : string) (prev : bool) (v : string) : bool :=
  negb prev && ci_prefix w v && negb (next_is_word (drop (String.length w) v))
  || match v with
     | String c v' => has_word w (is_word c) v'
     | EmptyString => false
     end.

(** [/class\s*=\s*[q][^q]*\bimage-container\b[^q]*[q]/i.test(tag)] *)
Definition class_at (s : string) : option unit :=
  if ci_prefix "class" s then
    match assign_space (drop 5 s) with
    | Some s2 =>
        match quoted s2 with
        | Some (v, _) => if has_word "image-container" false v then Some () else None
        | None => None
        end
    | None => None
    end
  else None.
Definition has_container_class (tag : string) : bool :=
  bool_decide (is_Some (first_match class_at tag)).

(** [/data-id\s*=\s*[q]([^q]+)[q]/i.test(tag)] *)
Definition data_id_space_at (s : string) : option string :=
  if ci_prefix "data-id" s then
    match assign_space (drop 7 s) with
    | Some s2 =>
        match quoted s2 with
        | Some (v, _) => if bool_decide (v = EmptyString) then None else Some v
        | None => None
        end
    | None => None
    end
  else None.
Definition has_data_id (tag : string) : bool :=
  bool_decide (is_Some (first_match data_id_space_at tag)).

(** [block.match(/data-id=[q]([^q]+)[q]/i)], group 1. *)
Definition data_id_at (s : string) : option string :=
  if ci_prefix "data-id" s then
    match assign (drop 7 s) with
    | Some s2 =>
        match quoted s2 with
        | Some (v, _) => if bool_decide (v = EmptyString) then None else Some v
        | None => None
        end
    | None => None
    end
  else None.
Definition match_data_id (block : string) : option string :=
  first_match data_id_at block.

(** [src=[q]([^q]+)[q]] read at the start of [s]. *)
Definition src_at (s : string) : option string :=
  if ci_prefix "src" s then
    match assign (drop 3 s) with
    | Some s2 =>
        match quoted s2 with
        | Some (v, _) => if bool_decide (v = EmptyString) then None else Some v
        | None => None
        end
    | None => None
    end
  else None.

(** [[^>]+src=[q]([^q]+)[q]] after [<img]: the greedy [[^>]+] gives up
    characters from the right, so the last [src=] that can be read within
    the run of characters other than [>] is the one taken.  [started]: at
    least one character of the run has been consumed; [best]: the value at
    the last position found so far. *)
Fixpoint img_src_scan (s : string) (started : bool) (best : option string)
    : option string :=
  let best' :=
    if started then
      match src_at s with
      | Some v => Some v
      | None => best
      end
    else best in
  match s with
  | EmptyString => best'
  | String c s' =>
      if bool_decide (c = ">"%char) then best' else img_src_scan s' true best'
  end.

(** [block.match(/<img[^>]+src=[q]([^q]+)[q]/i)], group 1. *)
Definition img_src_at (s : string) : option string :=
  if ci_prefix "<img" s then img_src_scan (drop 4 s) false None else None.
Definition match_img_src (block : string) : option string :=
  first_match img_src_at block.

(** [/^https?:\/\//i.test(src)] *)
Definition is_http (src : string) : bool :=
  ci_prefix "http://" src || ci_prefix "https://" src.

(** [/<div\b|<\/div>/ig] read at the start of [s]. *)
Definition div_open (s : string) : bool :=
  ci_prefix "<div" s && negb (next_is_word (drop 4 s)).
Definition div_close (s : string) : bool := ci_prefix "</div>" s.
Definition div_tag (s : string) : bool := div_open s || div_close s.

End Str.

(** ** The reachability probe: [checkUrl] *)

Module Prober.
Import Str.

(** The object the promise is resolved with; [{ ok: false }] has no
    [status] and no [contentType]. *)
Record result := Result {
  ok : bool;
  status : option Z;
  contentType : option string
}.

Definition failed : result := Result false None None.

(** What the request object emits: the response callback with
    [res.statusCode] and [res.headers['content-type']], ['error'] or
    ['timeout']. *)
Inductive event :=
| Response (statusCode : Z) (content_type : option string)
| Error
| Timeout.

(** What the runtime does with one call: [new URL(url)] throws,
    [lib.request] (or [req.end]) throws, or the request is sent and emits a
    first event and possibly later ones. *)
Inductive attempt :=
| InvalidUrl
| RequestThrows
| Sent (first : event) (later : list event).

(** A promise is fulfilled, rejected or pending. *)
Inductive promise :=
| Pending
| Fulfilled (r : result)
| Rejected.

(** [resolve(r)]: only the first call settles the promise. *)
Definition resolve (r : result) (p : promise) : promise :=
  match p with
  | Pending => Fulfilled r
  | _ => p
  end.

(** The response callback. *)
Definition on_response (statusCode : Z) (content_type : option string) : result :=
  let ct := toLowerCase (default EmptyString content_type) in
  let ok := (200 <=? statusCode) && (statusCode <? 300) && startsWith ct "image" in
  Result ok (Some statusCode) (Some ct).

Definition on_event (p : promise) (e : event) : promise :=
  match e with
  | Response st ct => resolve (on_response st ct) p
  | Error => resolve failed p
  | Timeout => resolve failed p
  end.

(** [checkUrl(url, timeout)], given what the runtime does with the call:
    the state of the returned promise once the events have been handled. *)
Definition checkUrl (runtime : string → Z → attempt) (url : string) (timeout : Z)
    : promise :=
  match runtime url timeout with
  | InvalidUrl => resolve failed Pending
  | RequestThrows => resolve failed Pending
  | Sent first later => fold_left on_event (first :: later) Pending
  end.

(** The value awaited by the caller. *)
Definition awaited (p : promise) : option result :=
  match p with
  | Fulfilled r => Some r
  | _ => None
  end.

(** A runtime for the examples: one host answers with a PNG, one with a
    page, one times out, anything else is refused as a URL. *)
Definition example_runtime (url : string) (timeout : Z) : attempt :=
  if bool_decide (url = "http://h/x.png") then
    Sent (Response 200 (Some "Image/PNG")) [Error]
  else if bool_decide (url = "http://h/index.html") then
    Sent (Response 200 (Some "text/html")) []
  else if bool_decide (url = "http://h/x.png?v=2") then
    Sent Timeout []
  else InvalidUrl.

End Prober.

(** ** The catalog extractor: [extractImageContainers] and the gallery
    section looked up by [main] *)

Module Extractor.
Import Str.

(** The inner loop, [while ((match = re.exec(html)) !== null)], started
    with [re.lastIndex = lastIndex]: [Some (Some closeIdx)] when the depth
    comes back to 0, [Some None] when [match === null]; [None] when the
    fuel runs out. *)
Fixpoint close_scan (fuel : nat) (html : string) (lastIndex : nat) (depth : Z)
    : option (option nat) :=
  match fuel with
  | O => None
  | S fuel' =>
      match search div_tag html lastIndex with
      | None => Some None
      | Some p =>
          let opening := div_open (drop p html) in
          let depth' := if opening then depth + 1 else depth - 1 in
          let lastIndex' := if opening then (p + 4)%nat else (p + 6)%nat in
          if decide (depth' = 0) then Some (Some lastIndex')
          else close_scan fuel' html lastIndex' depth'
      end
  end.

(** The outer loop, [while (true)]; a block is recorded as the pair
    [(openIdx, closeIdx)] of [html.slice(openIdx, closeIdx)]. *)
Fixpoint extract_loop (fuel : nat) (html : string) (idx : nat)
    (blocks : list (nat * nat)) : option (list (nat * nat)) :=
  match fuel with
  | O => None
  | S fuel' =>
      match indexOf html "<div" idx with
      | None => Some blocks
      | Some openIdx =>
          match indexOf html ">" openIdx with
          | None => Some blocks
          | Some tagEnd =>
              let openTag := slice html openIdx (tagEnd + 1) in
              if negb (has_container_class openTag) || negb (has_data_id openTag)
              then extract_loop fuel' html (tagEnd + 1) blocks
              else
                match close_scan (S (String.length html)) html (tagEnd + 1) 1 with
                | None => None
                | Some None => Some blocks
                | Some (Some closeIdx) =>
                    extract_loop fuel' html closeIdx (blocks ++ [(openIdx, closeIdx)])
                end
          end
      end
  end.

Definition extract_spans (html : string) : option (list (nat * nat)) :=
  extract_loop (S (String.length html)) html 0 [].

Definition block_of (html : string) (span : nat * nat) : string :=
  slice html span.1 span.2.

(** [extractImageContainers(html)] *)
Definition extractImageContainers (html : string) : option (list string) :=
  map (block_of html) <$> extract_spans html.

(** [[^>]*] followed by [>]: the run and what follows the [>]. *)
Fixpoint until_gt (s : string) : option (string * string) :=
  match s with
  | EmptyString => None
  | String c s' =>
      if bool_decide (c = ">"%char) then Some (EmptyString, s')
      else match until_gt s' with
           | Some (run, rest) => Some (String c run, rest)
           | None => None
           end
  end.

(** [class=[q]gallery[q]] read at the start of [s]. *)
Definition gallery_class_at (s : string) : option unit :=
  if ci_prefix "class" s then
    match assign (drop 5 s) with
    | Some s2 =>
        if ci_prefix "gallery" s2 then
          match drop 7 s2 with
          | String q _ => if is_quote q then Some () else None
          | EmptyString => None
          end
        else None
    | None => None
    end
  else None.

(** The lazy group and the closing tag: the text before the first
    [</section>], the tag as written, and the length of both. *)
Fixpoint until_section_close (s : string) : option (string * string) :=
  if ci_prefix "</section>" s then Some (EmptyString, slice s 0 10)
  else match s with
       | EmptyString => None
       | String c s' =>
           match until_section_close s' with
           | Some (content, close) => Some (String c content, close)
           | None => None
           end
       end.

Record gallery := Gallery {
  index : nat;            (* galleryMatch.index *)
  galleryOpen : string;   (* galleryMatch[1] *)
  galleryContent : string;(* galleryMatch[2] *)
  galleryClose : string   (* galleryMatch[3] *)
}.

(** The pattern [galleryRe] read at the start of [s].  The opening tag
    ends at the first [>] after [<section], and a [class=[q]gallery[q]]
    has to stand before it. *)
Definition gallery_at (s : string) : option (string * string * string) :=
  if ci_prefix "<section" s then
    match until_gt (drop 8 s) with
    | Some (attrs, rest) =>
        match first_match gallery_class_at attrs with
        | Some _ =>
            match until_section_close rest with
            | Some (content, close) =>
                Some (slice s 0 (8 + String.length attrs + 1), content, close)
            | None => None
            end
        | None => None
        end
    | None => None
    end
  else None.

(** [html.match(galleryRe)] *)
Definition match_gallery (html : string) : option gallery :=
  match search (λ s, bool_decide (is_Some (gallery_at s))) html 0 with
  | Some p =>
      match gallery_at (drop p html) with
      | Some (o, c, k) => Some (Gallery p o c k)
      | None => None
      end
  | None => None
  end.

(** The part of [main] that produces the blocks: the process exits with
    status 1 when [index.html] is missing or has no gallery section. *)
Inductive catalog :=
| Exit (status : Z)
| Blocks (g : gallery) (blocks : list string).

Definition read_catalog (index_html : option string) : option catalog :=
  match index_html with
  | None => Some (Exit 1)
  | Some html =>
      match match_gallery html with
      | None => Some (Exit 1)
      | Some g => Blocks g <$> extractImageContainers (galleryContent g)
      end
  end.



Definition page_with_gallery : string :=
  "<section class='gallery'><p>x</p><div class='image-container' data-id='a'><div><img src='a.png'></div></div><div class='other'></div><DIV data-id='b' class='image-container'></DIV></section>".
Definition page_with_empty_gallery : string :=
  "<section id='g' class='gallery'><p>nothing here</p></section>".

(** What [html.match(galleryRe)] and [extractImageContainers] give on
    [page_with_gallery]. *)
Definition gallery_of_page : gallery :=
  Gallery 0 "<section class='gallery'>"
    "<p>x</p><div class='image-container' data-id='a'><div><img src='a.png'></div></div><div class='other'></div><DIV data-id='b' class='image-container'></DIV>"
    "</section>".
Definition blocks_of_page : list string :=
  ["<div class='image-container' data-id='a'><div><img src='a.png'></div></div>"].

End Extractor.

(** ** The de-duplication passes of [main] *)

Module Dedup.
Import JS Str.

Inductive reason :=
| duplicate_id
| duplicate_src
| no_src
| local
| reachable
| unreachable.

(** An element of [results]. *)
Record result := Result {
  id : string;
  src : option string;
  ok : bool;
  why : reason;
  block : string
}.

(** An element of [removed]. *)
Record removal := Removal {
  removed_id : string;
  removed_src : string;
  removed_why : reason
}.

(** [idMatch ? idMatch[1] : '(no-id)'] and [srcMatch ? srcMatch[1] : null] *)
Definition block_id (block : string) : string :=
  default "(no-id)" (match_data_id block).
Definition block_src (block : string) : option string :=
  match_img_src block.

(** [x || ''] *)
Definition or_empty (x : option string) : string :=
  if truthy x then default EmptyString x else EmptyString.

Fixpoint no_line_end (s : string) : bool :=
  match s with
  | EmptyString => true
  | String c s' => negb ((code c =? 10) || (code c =? 13))%N && no_line_end s'
  end.

(** [s.replace(/\?.*$/, '')]: cut at the first [?] with no line end after
    it. *)
Fixpoint strip_query (s : string) : string :=
  match s with
  | EmptyString => EmptyString
  | String c s' =>
      if bool_decide (c = "?"%char) && no_line_end s' then EmptyString
      else String c (strip_query s')
  end.

(** [s.replace(/\/$/, '')] *)
Fixpoint strip_slash (s : string) : string :=
  match s with
  | EmptyString => EmptyString
  | String c s' =>
      if bool_decide (c = "/"%char) && bool_decide (s' = EmptyString)
      then EmptyString
      else String c (strip_slash s')
  end.

Section Passes.

(** The runtime of the probe, and the runtime's [URL] class:
    [url_href src] is [u.href] after [u = new URL(src)] and
    [u.search = ''], and [None] when the constructor throws. *)
Variable runtime : string → Z → Prober.attempt.
Variable url_href : string → option string.

(** [(await checkUrl(src)).ok] *)
Definition probe (src : string) : bool :=
  match Prober.awaited (Prober.checkUrl runtime src 8000) with
  | Some r => Prober.ok r
  | None => false
  end.

Definition normalizeSrc (src : string) : string :=
  if bool_decide (src = EmptyString) then src
  else
    match url_href src with
    | Some href => toLowerCase (strip_slash href)
    | None => toLowerCase (strip_slash (strip_query src))
    end.

(** The first loop, [for (const block of blocks)]. *)
Record state1 := State1 {
  results : list result;
  seenIds : gset string;
  seenSrcs : gset string
}.

Definition step1 (st : state1) (block : string) : state1 :=
  let id := block_id block in
  let src := block_src block in
  let s := default EmptyString src in
  if decide (id ∈ seenIds st) then
    State1 (results st ++ [Result id src false duplicate_id block])
           (seenIds st) (seenSrcs st)
  else if truthy src && bool_decide (s ∈ seenSrcs st) then
    State1 (results st ++ [Result id src false duplicate_src block])
           ({[id]} ∪ seenIds st) (seenSrcs st)
  else
    let ids := {[id]} ∪ seenIds st in
    let srcs := if truthy src then {[s]} ∪ seenSrcs st else seenSrcs st in
    if negb (truthy src) then
      State1 (results st ++ [Result id None false no_src block]) ids srcs
    else if negb (is_http s) then
      State1 (results st ++ [Result id src true local block]) ids srcs
    else if probe s then
      State1 (results st ++ [Result id src true reachable block]) ids srcs
    else
      State1 (results st ++ [Result id src false unreachable block]) ids srcs.

Definition pass1 (blocks : list string) : state1 :=
  fold_left step1 blocks (State1 [] ∅ ∅).

(** The element the first loop pushes for [block], as a function of the
    two sets at that point. *)
Definition check1 (ids srcs : gset string) (block : string) : result :=
  let id := block_id block in
  let src := block_src block in
  let s := default EmptyString src in
  if decide (id ∈ ids) then Result id src false duplicate_id block
  else if truthy src && bool_decide (s ∈ srcs) then
    Result id src false duplicate_src block
  else if negb (truthy src) then Result id None false no_src block
  else if negb (is_http s) then Result id src true local block
  else if probe s then Result id src true reachable block
  else Result id src false unreachable block.

(** The second loop, [for (const r of results)]. *)
Record state2 := State2 {
  kept : list string;
  removed : list removal;
  seenFinalIds : gset string;
  seenFinalSrcs : gset string
}.

Definition step2 (st : state2) (r : result) : state2 :=
  let src := or_empty (src r) in
  let norm := normalizeSrc src in
  let with_norm :=
    if bool_decide (norm ≠ EmptyString) then {[norm]} ∪ seenFinalSrcs st
    else seenFinalSrcs st in
  if negb (ok r) then
    State2 (kept st) (removed st ++ [Removal (id r) src (why r)])
           ({[id r]} ∪ seenFinalIds st) with_norm
  else if decide (id r ∈ seenFinalIds st) then
    State2 (kept st) (removed st ++ [Removal (id r) src duplicate_id])
           (seenFinalIds st) (seenFinalSrcs st)
  else if bool_decide (norm ≠ EmptyString) && bool_decide (norm ∈ seenFinalSrcs st) then
    State2 (kept st) (removed st ++ [Removal (id r) src duplicate_src])
           ({[id r]} ∪ seenFinalIds st) (seenFinalSrcs st)
  else
    State2 (kept st ++ [block r]) (removed st)
           ({[id r]} ∪ seenFinalIds st) with_norm.

Definition pass2 (rs : list result) : state2 :=
  fold_left step2 rs (State2 [] [] ∅ ∅).

(** Both loops. *)
Definition dedup (blocks : list string) : state2 :=
  pass2 (results (pass1 blocks)).

(** *** The two loops as one pass

    What the two loops decide for a block, given three sets gathered from
    the blocks before it: [ids], the ids of all of them; [srcs], the
    sources of those that did not repeat an id; [norms], the non-empty
    normalized sources of all of them. *)
Inductive decision :=
| Kept
| Dropped (r : reason).

Definition decide_block (ids srcs norms : gset string) (block : string) : decision :=
  let id := block_id block in
  let src := block_src block in
  let s := or_empty src in
  let norm := normalizeSrc s in
  if decide (id ∈ ids) then Dropped duplicate_id
  else if truthy src && bool_decide (s ∈ srcs) then Dropped duplicate_src
  else if negb (truthy src) then Dropped no_src
  else if is_http s && negb (probe s) then Dropped unreachable
  else if bool_decide (norm ≠ EmptyString) && bool_decide (norm ∈ norms)
  then Dropped duplicate_src
  else Kept.

Definition srcs_after (ids srcs : gset string) (block : string) : gset string :=
  if decide (block_id block ∈ ids) then srcs
  else if truthy (block_src block) then {[or_empty (block_src block)]} ∪ srcs
  else srcs.

(** [results] after the first loop, started with the two sets. *)
Fixpoint results_from (ids srcs : gset string) (blocks : list string)
    : list result :=
  match blocks with
  | [] => []
  | block :: rest =>
      check1 ids srcs block
      :: results_from ({[block_id block]} ∪ ids) (srcs_after ids srcs block) rest
  end.

Definition norms_after (norms : gset string) (block : string) : gset string :=
  if bool_decide (normalizeSrc (or_empty (block_src block)) ≠ EmptyString)
  then {[normalizeSrc (or_empty (block_src block))]} ∪ norms
  else norms.

Fixpoint decisions (ids srcs norms : gset string) (blocks : list string)
    : list (string * decision) :=
  match blocks with
  | [] => []
  | block :: rest =>
      (block, decide_block ids srcs norms block)
      :: decisions ({[block_id block]} ∪ ids) (srcs_after ids srcs block)
                   (norms_after norms block) rest
  end.

Definition kept_of (ds : list (string * decision)) : list string :=
  omap (λ d, match d.2 with Kept => Some d.1 | Dropped _ => None end) ds.

Definition removed_of (ds : list (string * decision)) : list removal :=
  omap (λ d, match d.2 with
             | Kept => None
             | Dropped r =>
                 Some (Removal (block_id d.1) (or_empty (block_src d.1)) r)
             end) ds.

(** *** The Deduplicator as the specification words it

    Written after section 4.3 of the specification, to be compared with
    the code: one pass with a seen-ids set and a seen-normalized-sources
    set, and the decision taken in the order 1 to 5, the normalized source
    being looked up before the source is probed. *)
Definition spec_decide (ids norms : gset string) (block : string) : decision :=
  let id := block_id block in
  let s := or_empty (block_src block) in
  let norm := normalizeSrc s in
  if decide (id ∈ ids) then Dropped duplicate_id
  else if bool_decide (norm ≠ EmptyString) && bool_decide (norm ∈ norms)
  then Dropped duplicate_src
  else if bool_decide (s = EmptyString) then Dropped no_src
  else if negb (is_http s) then Kept
  else if probe s then Kept
  else Dropped unreachable.

Fixpoint spec_decisions (ids norms : gset string) (blocks : list string)
    : list (string * decision) :=
  match blocks with
  | [] => []
  | block :: rest =>
      (block, spec_decide ids norms block)
      :: spec_decisions ({[block_id block]} ∪ ids)
           (if decide (block_id block ∈ ids) then norms
            else norms_after norms block) rest
  end.

End Passes.

(** Two blocks whose sources differ in the query only; the second source
    does not answer the probe. *)
Definition block_a : string :=
  "<div class='image-container' data-id='a'><img src='http://h/x.png'></div>".
Definition block_b : string :=
  "<div class='image-container' data-id='b'><img src='http://h/x.png?v=2'></div>".
Definition block_c : string :=
  "<div class='image-container' data-id='a'><img src='img/c.png'></div>".
Definition block_d : string :=
  "<div class='image-container' data-id='d'><img src='img/d.png'></div>".

(** The [URL] class on the sources of the examples. *)
Definition example_href (src : string) : option string :=
  if bool_decide (src = "http://h/x.png") then Some "http://h/x.png"
  else if bool_decide (src = "http://h/x.png?v=2") then Some "http://h/x.png"
  else None.

End Dedup.

(** ** Reconciliation of [views.json] with the catalog *)

Module Reconciler.
Import JS Str.

(** An entry of [views.json] as parsed.  A count is [Some n] when
    [Number.isFinite] accepts it, [usersHearted] is [Some l] when
    [Array.isArray] does; [None] stands for anything else. *)
Record raw_entry := Raw {
  raw_views : option Z;
  raw_hearts : option Z;
  raw_usersHearted : option (list string)
}.

(** [{ views: 0, hearts: 0, usersHearted: [] }] *)
Definition zero_raw : raw_entry := Raw (Some 0) (Some 0) (Some []).

(** The [else] branch of the first [forEach]: "normalize existing entries". *)
Definition normalize (e : raw_entry) : raw_entry :=
  Raw (Some (default 0 (raw_views e))) (Some (default 0 (raw_hearts e)))
      (Some (default [] (raw_usersHearted e))).


(** [data-id=[q]([^q]+)[q]] read, case-sensitively, at the start of [s]:
    group 1 and the length of the match. *)
Definition data_id_exact_at (s : string) : option (string * nat) :=
  if String.prefix "data-id" s then
    match assign (drop 7 s) with
    | Some s2 =>
        match quoted s2 with
        | Some (v, _) =>
            if bool_decide (v = EmptyString) then None
            else Some (v, (String.length v + 10)%nat)
        | None => None
        end
    | None => None
    end
  else None.

(** [Array.from(html.matchAll(/data-id=[q]([^q]+)[q]/g)).map(m => m[1])];
    [skip] characters of the last match are still to be passed over. *)
Fixpoint scan_ids (skip : nat) (s : string) : list string :=
  match s with
  | EmptyString => []
  | String _ s' =>
      match skip with
      | S k => scan_ids k s'
      | O =>
          match data_id_exact_at s with
          | Some (v, len) => v :: scan_ids (len - 1) s'
          | None => scan_ids 0 s'
          end
      end
  end.

(** The first [forEach]: "Add missing ids from index -> views". *)
Definition add_missing (st : gmap string raw_entry * nat) (id : string)
    : gmap string raw_entry * nat :=
  match st.1 !! id with
  | None => (<[id := zero_raw]> st.1, S st.2)
  | Some e => (<[id := normalize e]> st.1, st.2)
  end.

(** The second: "Remove entries present in views.json but not in
    index.html". *)
Definition remove_extra (ids : list string) (st : gmap string raw_entry * nat)
    (id : string) : gmap string raw_entry * nat :=
  if decide (id ∈ ids) then st else (delete id st.1, S st.2).

(** The entry the first loop leaves for an id of the catalog. *)
Definition settled (o : option raw_entry) : raw_entry :=
  match o with
  | Some e => normalize e
  | None => zero_raw
  end.

(** [Object.keys(views)] *)
Definition keys (views : gmap string raw_entry) : list string :=
  (map_to_list views).*1.

(** The line the script prints. *)
Record summary := Summary {
  scanned : nat;
  added : nat;
  removed : nat
}.

(** The script from "let added = 0" on: the object written to
    [views.json], and the summary. *)
Definition reconcile (ids : list string) (views : gmap string raw_entry)
    : gmap string raw_entry * summary :=
  let st1 := fold_left add_missing ids (views, O) in
  let st2 := fold_left (remove_extra ids) (keys st1.1) (st1.1, O) in
  (st2.1, Summary (length ids) st1.2 st2.2).

(** The whole script: [None] for [index.html] makes it exit with status 1;
    a [views.json] that is missing or cannot be parsed counts as [{}]. *)
Definition reconcile_script (index_html : option string)
    (views_json : option (gmap string raw_entry))
    : option (gmap string raw_entry * summary) :=
  match index_html with
  | None => None
  | Some html => Some (reconcile (scan_ids 0 html) (default ∅ views_json))
  end.

(** The end of [main] in [fix-images.js]:
    [for (const id of seenFinalIds) if (viewsData[id]) newViews[id] = viewsData[id]] *)
Definition prune_views (seenFinalIds : gset string)
    (viewsData : gmap string raw_entry) : gmap string raw_entry :=
  set_fold (λ id newViews,
              match viewsData !! id with
              | Some e => <[id := e]> newViews
              | None => newViews
              end) ∅ seenFinalIds.

Definition newline : string := String (Ascii.ascii_of_N 10) EmptyString.

(** What a run of [fix-images.js] leaves behind. *)
Inductive outcome :=
| Exited (status : Z)
| NothingFound
| Written (newHtml : string) (newViews : option (gmap string raw_entry))
          (report : Dedup.state2).

(** [main] of [fix-images.js]; [views_json] is [None] when the file does
    not exist. *)
Definition main (runtime : string → Z → Prober.attempt)
    (url_href : string → option string) (index_html : option string)
    (views_json : option (gmap string raw_entry)) : option outcome :=
  match Extractor.read_catalog index_html with
  | None => None
  | Some (Extractor.Exit status) => Some (Exited status)
  | Some (Extractor.Blocks g blocks) =>
      match blocks with
      | [] => Some NothingFound
      | _ =>
          let html := default EmptyString index_html in
          let d := Dedup.dedup runtime url_href blocks in
          let newGalleryContent :=
            newline +:+ String.concat newline (Dedup.kept d) +:+ newline in
          let matched :=
            (String.length (Extractor.galleryOpen g)
             + String.length (Extractor.galleryContent g)
             + String.length (Extractor.galleryClose g))%nat in
          let newHtml :=
            slice html 0 (Extractor.index g) +:+ Extractor.galleryOpen g
            +:+ newGalleryContent +:+ Extractor.galleryClose g
            +:+ drop (Extractor.index g + matched) html in
          Some (Written newHtml
                        (prune_views (Dedup.seenFinalIds d) <$> views_json) d)
      end
  end.

(** The scenario of the specification: entries [a], [b], [c] and a
    catalog with [a] and [b]. *)
Definition abc : gmap string raw_entry :=
  <["a" := Raw (Some 3) (Some 1) (Some ["alice"])]>
    (<["b" := Raw (Some 5) (Some 0) (Some [])]>
       (<["c" := Raw (Some 7) (Some 2) (Some ["alice"; "bob"])]> ∅)).

End Reconciler.

(* ===================================================================== *)
(** * Part II: properties *)
(* ===================================================================== *)

(** ** Facts about the JavaScript helpers *)

Section JSFacts.
Import JS.

Lemma or0_id (n : Z) : or0 n = n.
Proof. unfold or0. by case_decide. Qed.

Lemma elem_of_array_from_set_acc (l acc : list string) (x : string) :
  x ∈ fold_left (λ acc x, if decide (x ∈ acc) then acc else acc ++ [x]) l acc
  ↔ x ∈ acc ∨ x ∈ l.
Proof.
  revert acc. induction l as [|y l IH]; intros acc; simpl.
  - set_solver.
  - rewrite IH. case_decide; set_solver.
Qed.

Lemma elem_of_array_from_set (l : list string) (x : string) :
  x ∈ array_from_set l ↔ x ∈ l.
Proof. unfold array_from_set. rewrite elem_of_array_from_set_acc. set_solver. Qed.

Lemma filter_eq_absent (x : string) (l : list string) :
  x ∉ l → filter (λ y, y = x) l = [].
Proof.
  induction l as [|y l IH]; [done|]. intros Hx.
  rewrite filter_cons, decide_False by set_solver. apply IH. set_solver.
Qed.

Lemma truthy_Some (x : option string) :
  truthy x = true ↔ ∃ s, x = Some s ∧ s ≠ EmptyString.
Proof.
  destruct x as [s|]; simpl.
  - rewrite bool_decide_eq_true. naive_solver.
  - naive_solver.
Qed.

End JSFacts.

(** ** The ledger *)

Section LedgerFacts.
Import JS Ledger.

Lemma entry_at_ensure (id j : string) (d : gmap string entry) :
  entry_at j (ensure id d) = entry_at j d.
Proof.
  unfold entry_at, ensure. destruct (d !! id) eqn:E; [done|].
  destruct (decide (id = j)) as [->|Hne].
  - by rewrite lookup_insert_eq, E.
  - by rewrite lookup_insert_ne.
Qed.

Lemma lookup_ensure (id j : string) (d : gmap string entry) :
  ensure id d !! j =
  if decide (id = j) then Some (entry_at id d) else d !! j.
Proof.
  unfold ensure, entry_at. case_decide as Hj; subst.
  - destruct (d !! j) eqn:E; simpl; [done|]. by rewrite lookup_insert_eq.
  - destruct (d !! id) eqn:E; [done|]. by rewrite lookup_insert_ne.
Qed.

Lemma ensure_present (id : string) (d : gmap string entry) :
  is_Some (d !! id) → ensure id d = d.
Proof. intros [e He]. unfold ensure. by rewrite He. Qed.

Lemma set_data_same (s : state) : set_data (data s) s = s.
Proof. by destruct s. Qed.

Lemma entry_at_alter (f : entry → entry) (i j : string) (d : gmap string entry) :
  is_Some (d !! i) →
  entry_at j (alter f i d) = if decide (i = j) then f (entry_at i d) else entry_at j d.
Proof.
  intros [e He]. unfold entry_at. case_decide as Hj; subst.
  - by rewrite lookup_alter_eq, He.
  - by rewrite lookup_alter_ne.
Qed.

Lemma ensure_is_Some (i : string) (d : gmap string entry) : is_Some (ensure i d !! i).
Proof. rewrite lookup_ensure, decide_True by done. eauto. Qed.

Lemma signed_in_Some (userId : option string) (us : gmap string user) u r :
  signed_in userId us = Some (u, r) ↔ userId = Some u ∧ u ≠ EmptyString ∧ us !! u = Some r.
Proof.
  unfold signed_in. destruct userId as [v|]; simpl; [|naive_solver].
  case_bool_decide as Hv.
  - destruct (us !! v) eqn:E; simpl; naive_solver.
  - naive_solver.
Qed.


Lemma hearts_consistent_alt (s : state) :
  hearts_consistent s ↔ map_Forall (λ _, entry_consistent) (data s).
Proof. done. Qed.

Lemma ensure_Forall (P : entry → Prop) (id : string) (d : gmap string entry) :
  P zero_entry → map_Forall (λ _, P) d → map_Forall (λ _, P) (ensure id d).
Proof.
  intros H0 Hd. unfold ensure. destruct (d !! id); [done|].
  by apply map_Forall_insert_2.
Qed.

Lemma alter_Forall (P : entry → Prop) (f : entry → entry) (id : string)
    (d : gmap string entry) :
  (∀ e, d !! id = Some e → P (f e)) →
  map_Forall (λ _, P) d → map_Forall (λ _, P) (alter f id d).
Proof.
  intros Hf Hd j e. destruct (decide (id = j)) as [->|Hne].
  - rewrite lookup_alter_eq. destruct (d !! j) eqn:E; simpl; [|done].
    intros [= <-]. by apply Hf.
  - rewrite lookup_alter_ne by done. apply Hd.
Qed.

Lemma get_data_consistent id userId s :
  hearts_consistent s → hearts_consistent (get_data id userId s).1.
Proof.
  rewrite !hearts_consistent_alt. simpl. intros H.
  by apply ensure_Forall.
Qed.

Lemma post_view_consistent id userId s :
  hearts_consistent s → hearts_consistent (post_view id userId s).1.
Proof.
  rewrite !hearts_consistent_alt. intros H. unfold post_view.
  destruct id as [i|]; [|done]. destruct (truthy (Some i)); [|done].
  cbn [fst]. pose proof (ensure_Forall entry_consistent i (data s) eq_refl H) as H0.
  destruct (signed_in _ _) as [[u r]|]; [case_decide|]; simpl; try done.
  - apply alter_Forall; [|done]. intros e He. by apply H0 in He.
  - apply alter_Forall; [|done]. intros e He. by apply H0 in He.
Qed.

Lemma post_heart_consistent id userId s :
  hearts_consistent s → hearts_consistent (post_heart id userId s).1.
Proof.
  rewrite !hearts_consistent_alt. intros H. unfold post_heart.
  destruct id as [i|]; [|done]. destruct (truthy (Some i)); [|done].
  destruct (signed_in _ _) as [[u r]|]; [|done]. cbn [fst saveData saveUsers data].
  intros j e. destruct (decide (i = j)) as [->|Hne].
  - rewrite !lookup_alter_eq.
    destruct (ensure j (data s) !! j) eqn:E; simpl; [|done].
    by intros [= <-].
  - rewrite !lookup_alter_ne by done. revert j e Hne.
    pose proof (ensure_Forall entry_consistent i (data s) eq_refl H) as H0.
    intros j e _. apply H0.
Qed.

Lemma post_register_data u e p s : data (post_register u e p s).1 = data s.
Proof.
  unfold post_register. destruct u, e, p; try done.
  destruct (_ && _); [|done]. by destruct (users s !! _).
Qed.

Lemma post_login_state u e p s : (post_login u e p s).1 = s.
Proof.
  unfold post_login. destruct (users s !! _); [|done].
  by case_bool_decide.
Qed.

Lemma handle_consistent r s :
  hearts_consistent s → hearts_consistent (handle r s).1.
Proof.
  intros H. destruct r as [u e p|u e p| |i u|i u|i u]; simpl.
  - unfold hearts_consistent. by rewrite post_register_data.
  - by rewrite post_login_state.
  - done.
  - exact (get_data_consistent i u s H).
  - exact (post_view_consistent i u s H).
  - exact (post_heart_consistent i u s H).
Qed.

(** C3. After any sequence of requests, heart toggles in particular, the
    stored heart count of every id equals the size of the id's
    [usersHearted] set: this holds for the server started with an empty
    ledger, and it is kept from any ledger in which it holds; [/heart]
    recomputes the count from the set and no other handler touches either. *)
Theorem heart_count_is_set_size :
  (∀ (rs : list request) (id : string),
     heartCount id (serve rs initial)
     = Z.of_nat (size (heartedBy id (serve rs initial)))) ∧
  (∀ (rs : list request) (s : state),
     hearts_consistent s →
     hearts_consistent (serve rs s) ∧
     ∀ id, heartCount id (serve rs s)
           = Z.of_nat (size (heartedBy id (serve rs s)))).
Proof.
  assert (∀ rs s, hearts_consistent s → hearts_consistent (serve rs s)) as Hs.
  { intros rs. induction rs as [|r rs IH]; intros s H; simpl; [done|].
    apply IH. by apply handle_consistent. }
  assert (∀ s id, hearts_consistent s →
            heartCount id s = Z.of_nat (size (heartedBy id s))) as Hc.
  { intros s id H. unfold heartCount, heartedBy, entry_at.
    destruct (data s !! id) as [e|] eqn:E; simpl; [|done]. by apply H in E. }
  split.
  - intros rs id. apply Hc, Hs. intros j e H.
    change (data initial) with (∅ : gmap string entry) in H.
    by rewrite lookup_empty in H.
  - intros rs s H. split; [by apply Hs|]. intros id. by apply Hc, Hs.
Qed.

Lemma heart_count_is_set_size_witness :
  hearts_consistent
    (serve [Heart (Some "panda1") (Some "alice"); View (Some "panda2") None] one_user).
Proof.
  apply (proj2 heart_count_is_set_size
           [Heart (Some "panda1") (Some "alice"); View (Some "panda2") None] one_user).
  intros id e H. vm_compute in H. discriminate H.
Defined.

Lemma post_heart_signed_in (i u : string) (r : user) (s : state) :
  i ≠ EmptyString → u ≠ EmptyString → users s !! u = Some r →
  data (post_heart (Some i) (Some u) s).1 =
    <[i := Entry (viewCount i s)
                 (Z.of_nat (size (toggled_set u (heartedBy i s))))
                 (toggled_set u (heartedBy i s))]> (data s) ∧
  users (post_heart (Some i) (Some u) s).1 =
    <[u := set_hearted (toggled_list u i (heartedBy i s) (hearted r)) r]> (users s).
Proof.
  intros Hi Hu Hr. unfold post_heart.
  assert (truthy (Some i) = true) as -> by (apply truthy_Some; eauto).
  assert (signed_in (Some u) (users s) = Some (u, r)) as ->
    by (by apply signed_in_Some).
  cbn [fst saveData saveUsers data users].
  rewrite !entry_at_ensure. split; [|done]. apply map_eq. intros j.
  unfold viewCount, heartedBy, toggled_set.
  destruct (decide (i = j)) as [->|Hne].
  - rewrite !lookup_alter_eq, lookup_insert_eq, lookup_ensure.
    rewrite decide_True by done. done.
  - rewrite !lookup_alter_ne, lookup_insert_ne, lookup_ensure by done.
    by rewrite decide_False.
Qed.

Lemma post_heart_cases (id userId : option string) (s : state) :
  (post_heart id userId s).1 = s ∨
  ∃ i u r, id = Some i ∧ userId = Some u ∧ i ≠ EmptyString ∧ u ≠ EmptyString ∧
    users s !! u = Some r ∧
    data (post_heart id userId s).1 =
      <[i := Entry (viewCount i s)
                   (Z.of_nat (size (toggled_set u (heartedBy i s))))
                   (toggled_set u (heartedBy i s))]> (data s) ∧
    users (post_heart id userId s).1 =
      <[u := set_hearted (toggled_list u i (heartedBy i s) (hearted r)) r]> (users s).
Proof.
  destruct id as [i|]; [|by left].
  destruct (truthy (Some i)) eqn:Hi; [|left; unfold post_heart; by rewrite Hi].
  destruct (signed_in userId (users s)) as [[u r]|] eqn:Hu;
    [|left; unfold post_heart; by rewrite Hi, Hu].
  right. apply signed_in_Some in Hu as (-> & Hu & Hr).
  apply truthy_Some in Hi as (? & [= <-] & Hi).
  exists i, u, r. do 5 (split; [done|]). by apply post_heart_signed_in.
Qed.

Lemma post_heart_mirrored id userId s :
  mirrored s → mirrored (post_heart id userId s).1.
Proof.
  intros H. destruct (post_heart_cases id userId s) as [->|Hc]; [done|].
  destruct Hc as (i & u & r & -> & -> & Hi & Hu & Hr & Hd & Hus).
  intros v q j. unfold heartedBy. rewrite Hd, Hus. clear Hd Hus.
  assert (∀ w, w ∈ usersHearted (entry_at j
            (<[i:=Entry (viewCount i s)
                 (Z.of_nat (size (toggled_set u (heartedBy i s))))
                 (toggled_set u (heartedBy i s))]> (data s)))
          ↔ if decide (i = j) then w ∈ toggled_set u (heartedBy j s)
            else w ∈ heartedBy j s) as Hmem.
  { intros w. unfold entry_at at 1. case_decide as Hj; subst.
    - by rewrite lookup_insert_eq.
    - by rewrite lookup_insert_ne. }
  rewrite Hmem. clear Hmem.
  destruct (decide (u = v)) as [<-|Huv].
  - rewrite lookup_insert_eq. intros [= <-]. simpl.
    specialize (H u r). unfold toggled_list, toggled_set.
    case_decide as Hj; subst.
    + case_bool_decide as Hm.
      * rewrite list_elem_of_filter. set_solver.
      * rewrite elem_of_array_from_set. set_solver.
    + rewrite <- (H j Hr).
      case_bool_decide as Hm.
      * rewrite list_elem_of_filter. naive_solver.
      * rewrite elem_of_array_from_set. set_solver.
  - rewrite lookup_insert_ne by done. intros Hq.
    rewrite (H v q j Hq). case_decide as Hj; [|done]. subst.
    unfold toggled_set. case_bool_decide; set_solver.
Qed.

Lemma usersHearted_add_view (i j : string) (d : gmap string entry) :
  usersHearted (entry_at j (alter add_view i (ensure i d)))
  = usersHearted (entry_at j d).
Proof.
  rewrite entry_at_alter by apply ensure_is_Some.
  case_decide; subst; simpl; by rewrite entry_at_ensure.
Qed.

Lemma post_view_heartedBy (id userId : option string) (s : state) (j : string) :
  heartedBy j (post_view id userId s).1 = heartedBy j s.
Proof.
  unfold post_view. destruct id as [i|]; [|done].
  destruct (truthy (Some i)); [|done]. cbn [fst].
  destruct (signed_in _ _) as [[u r]|]; [case_decide|]; unfold heartedBy;
    cbn [data set_data set_users saveData saveUsers];
    by rewrite ?usersHearted_add_view, ?entry_at_ensure.
Qed.

Lemma post_view_hearted (id userId : option string) (s : state) (u : string) :
  hearted <$> users (post_view id userId s).1 !! u = hearted <$> users s !! u.
Proof.
  unfold post_view. destruct id as [i|]; [|done].
  destruct (truthy (Some i)); [|done]. cbn [fst].
  destruct (signed_in _ _) as [[v r]|] eqn:Hv; [case_decide|]; try done.
  cbn [users set_data set_users saveData saveUsers].
  apply signed_in_Some in Hv as (_ & _ & Hr). cbn [users set_data] in Hr.
  destruct (decide (v = u)) as [->|Hne].
  - by rewrite lookup_insert_eq, Hr.
  - by rewrite lookup_insert_ne.
Qed.

(** A step that leaves the [usersHearted] sets and the [hearted] lists
    alone keeps both invariants. *)
Lemma mirrored_frame (s s' : state) :
  (∀ j, heartedBy j s' = heartedBy j s) →
  (∀ u, hearted <$> users s' !! u = hearted <$> users s !! u) →
  (mirrored s → mirrored s') ∧
  (hearted_by_registered s → hearted_by_registered s').
Proof.
  intros Hd Hu. split.
  - intros H u r' id Hr'. specialize (Hu u). rewrite Hr' in Hu.
    destruct (users s !! u) as [r|] eqn:Hr; [|done].
    injection Hu as Hu. rewrite Hu, Hd. by apply H.
  - intros H id u Hin. rewrite Hd in Hin. apply H in Hin as [r Hr].
    specialize (Hu u). rewrite Hr in Hu.
    destruct (users s' !! u); [eauto|done].
Qed.

Lemma post_heart_registered (id userId : option string) (s : state) :
  hearted_by_registered s → hearted_by_registered (post_heart id userId s).1.
Proof.
  intros H. destruct (post_heart_cases id userId s) as [->|Hc]; [done|].
  destruct Hc as (i & u & r & -> & -> & Hi & Hu & Hr & Hd & Hus).
  intros j v. unfold heartedBy, entry_at. rewrite Hd, Hus.
  destruct (decide (i = j)) as [->|Hne].
  - rewrite lookup_insert_eq. simpl. unfold toggled_set. intros Hv.
    destruct (decide (u = v)) as [->|Huv]; [by rewrite lookup_insert_eq|].
    rewrite lookup_insert_ne by done. apply (H j).
    case_bool_decide; set_solver.
  - rewrite lookup_insert_ne by done. intros Hv.
    destruct (decide (u = v)) as [->|Huv]; [by rewrite lookup_insert_eq|].
    rewrite lookup_insert_ne by done. by apply (H j).
Qed.

Lemma post_register_kept (username email password : option string) (s : state) :
  mirrored s ∧ hearted_by_registered s →
  mirrored (post_register username email password s).1 ∧
  hearted_by_registered (post_register username email password s).1.
Proof.
  intros [Hm Hr]. unfold post_register.
  destruct username as [u|], email as [e|], password as [p|]; try done.
  destruct (_ && _); [|done]. destruct (users s !! u) eqn:Hu; [done|].
  cbn [fst]. split.
  - intros v r id. unfold heartedBy. cbn [users data set_users saveUsers].
    destruct (decide (u = v)) as [->|Hne].
    + rewrite lookup_insert_eq. intros [= <-]. simpl. split; [set_solver|].
      intros Hin. apply Hr in Hin as [? Hin]. congruence.
    + rewrite lookup_insert_ne by done. apply Hm.
  - intros id v Hin. cbn [users set_users saveUsers].
    destruct (decide (u = v)) as [->|Hne]; [by rewrite lookup_insert_eq|].
    rewrite lookup_insert_ne by done. by apply (Hr id).
Qed.

Lemma handle_kept (r : request) (s : state) :
  mirrored s ∧ hearted_by_registered s →
  mirrored (handle r s).1 ∧ hearted_by_registered (handle r s).1.
Proof.
  intros H. destruct r as [u e p|u e p| |i u|i u|i u]; simpl.
  - by apply post_register_kept.
  - by rewrite post_login_state.
  - done.
  - destruct (mirrored_frame s (get_data i u s).1) as [H1 H2].
    + intros j. unfold heartedBy. simpl. by rewrite entry_at_ensure.
    + done.
    + destruct H. auto.
  - destruct (mirrored_frame s (post_view i u s).1) as [H1 H2].
    + intros j. apply post_view_heartedBy.
    + intros v. apply post_view_hearted.
    + destruct H. auto.
  - destruct H. split; [by apply post_heart_mirrored|by apply post_heart_registered].
Qed.

(** C4. After any sequence of heart toggles, an id is in a registered
    user's [hearted] list exactly when the user is in the id's
    [usersHearted] set: this holds for the server started with empty
    stores, whatever requests it serves, and heart toggles keep it from any
    state in which it holds. *)
Theorem hearted_mirrors_heartedBy :
  (∀ (rs : list request) (u : string) (r : user) (id : string),
     users (serve rs initial) !! u = Some r →
     (id ∈ hearted r ↔ u ∈ heartedBy id (serve rs initial))) ∧
  (∀ (toggles : list (option string * option string)) (s : state),
     mirrored s →
     ∀ u r id,
       users (serve (map (λ t, Heart t.1 t.2) toggles) s) !! u = Some r →
       (id ∈ hearted r ↔
        u ∈ heartedBy id (serve (map (λ t, Heart t.1 t.2) toggles) s))).
Proof.
  split.
  - intros rs.
    assert (∀ s, mirrored s ∧ hearted_by_registered s →
                 mirrored (serve rs s)) as H.
    { induction rs as [|q rs IH]; intros s Hs; simpl; [by destruct Hs|].
      apply IH. by apply handle_kept. }
    apply H. split.
    + intros u r id Hu.
      change (users initial) with (∅ : gmap string user) in Hu.
      by rewrite lookup_empty in Hu.
    + intros id u Hu. unfold heartedBy, entry_at in Hu.
      change (data initial) with (∅ : gmap string entry) in Hu.
      rewrite lookup_empty in Hu. set_solver.
  - intros toggles s H.
    change (mirrored (serve (map (λ t, Heart t.1 t.2) toggles) s)).
    revert s H. induction toggles as [|[i u] ts IH]; intros s H; simpl; [done|].
    apply IH. by apply post_heart_mirrored.
Qed.

Lemma one_user_mirrored : mirrored one_user.
Proof.
  intros u r id H. unfold one_user in H. simpl in H.
  apply lookup_singleton_Some in H as [<- <-]. simpl.
  unfold heartedBy, entry_at. simpl. rewrite lookup_empty. simpl. set_solver.
Qed.

Lemma hearted_mirrors_heartedBy_witness :
  "panda1" ∈ hearted (set_hearted ["panda1"] alice) ↔
  "alice" ∈ heartedBy "panda1"
    (serve (map (λ t, Heart t.1 t.2) [(Some "panda1", Some "alice")]) one_user).
Proof.
  apply (proj2 hearted_mirrors_heartedBy [(Some "panda1", Some "alice")] one_user
           one_user_mirrored "alice" (set_hearted ["panda1"] alice) "panda1").
  vm_compute. reflexivity.
Defined.

(** After a toggle that passes the checks the id's count is the size of its
    set, whatever the state before: the count is recomputed. *)
Lemma toggle_recomputes (id u : string) (s : state) :
  id ≠ EmptyString → u ≠ EmptyString → is_Some (users s !! u) →
  heartCount id (toggleHeart id u s).1
  = Z.of_nat (size (heartedBy id (toggleHeart id u s).1)).
Proof.
  intros Hi Hu [r Hr]. unfold toggleHeart.
  destruct (post_heart_signed_in id u r s Hi Hu Hr) as [Hd _].
  unfold heartCount, heartedBy, entry_at. by rewrite Hd, lookup_insert_eq.
Qed.



Lemma post_view_signed_in (i u : string) (r : user) (s : state) :
  i ≠ EmptyString → u ≠ EmptyString → users s !! u = Some r →
  (post_view (Some i) (Some u) s).1 =
  if decide (i ∈ viewed r) then set_data (ensure i (data s)) s
  else
    State (alter add_view i (ensure i (data s)))
          (<[u := push_viewed i r]> (users s))
          (Some (alter add_view i (ensure i (data s))))
          (Some (<[u := push_viewed i r]> (users s))).
Proof.
  intros Hi Hu Hr. unfold post_view.
  assert (truthy (Some i) = true) as -> by (apply truthy_Some; eauto).
  assert (signed_in (Some u) (users (set_data (ensure i (data s)) s)) = Some (u, r)) as ->.
  { by apply signed_in_Some. }
  by case_decide.
Qed.

(** C6, amended. For a registered user [u] and a non-empty id that is not
    yet in [u]'s [viewed] list, two views in a row raise the view count by
    exactly 1: the first adds 1 and appends the id, the second changes
    nothing, and the id occurs exactly once in the list afterwards. *)
Theorem recordUserView_twice (id u : string) (r : user) (s : state) :
  id ≠ EmptyString → u ≠ EmptyString → users s !! u = Some r → id ∉ viewed r →
  let s1 := (recordUserView id u s).1 in
  let s2 := (recordUserView id u s1).1 in
  viewCount id s1 = viewCount id s + 1 ∧
  s2 = s1 ∧
  viewCount id s2 = viewCount id s + 1 ∧
  ∃ r2, users s2 !! u = Some r2 ∧ viewed r2 = viewed r ++ [id] ∧
        length (filter (λ x, x = id) (viewed r2)) = 1%nat.
Proof.
  intros Hi Hu Hr Hv s1 s2.
  assert (s1 = State (alter add_view id (ensure id (data s)))
          (<[u := push_viewed id r]> (users s))
          (Some (alter add_view id (ensure id (data s))))
          (Some (<[u := push_viewed id r]> (users s)))) as Hs1.
  { unfold s1, recordUserView. rewrite (post_view_signed_in id u r) by done.
    by rewrite decide_False. }
  assert (viewCount id s1 = viewCount id s + 1) as Hc.
  { rewrite Hs1. unfold viewCount. cbn [data].
    rewrite entry_at_alter by apply ensure_is_Some.
    rewrite decide_True by done. simpl. by rewrite entry_at_ensure, or0_id. }
  assert (s2 = s1) as Hs2.
  { unfold s2, recordUserView.
    rewrite (post_view_signed_in id u (push_viewed id r)); [|done|done|].
    - rewrite decide_True by (simpl; set_solver).
      rewrite ensure_present; [apply set_data_same|].
      rewrite Hs1. cbn [data]. rewrite lookup_alter_eq.
      destruct (ensure_is_Some id (data s)) as [e ->]. simpl. eauto.
    - rewrite Hs1. cbn [users]. apply lookup_insert_eq. }
  split; [done|]. split; [done|]. split; [by rewrite Hs2|].
  exists (push_viewed id r). rewrite Hs2, Hs1. cbn [users].
  split; [apply lookup_insert_eq|]. split; [done|]. simpl.
  rewrite filter_app. rewrite length_app.
  rewrite (filter_eq_absent id (viewed r)) by done.
  by rewrite filter_cons, decide_True.
Qed.

Lemma recordUserView_twice_witness :
  viewCount "panda1"
    (recordUserView "panda1" "alice"
       (recordUserView "panda1" "alice" one_user).1).1
  = viewCount "panda1" one_user + 1.
Proof.
  assert ("panda1" ≠ EmptyString) as Hi by done.
  assert ("alice" ≠ EmptyString) as Hu by done.
  assert (users one_user !! "alice" = Some alice) as Hr by (by vm_compute).
  assert ("panda1" ∉ viewed alice) as Hv by apply not_elem_of_nil.
  destruct (recordUserView_twice "panda1" "alice" alice one_user Hi Hu Hr Hv)
    as (_ & _ & H & _).
  exact H.
Defined.

(** C6, as stated, fails: when the id is already in the user's [viewed]
    list, two further views add nothing to the count. *)
Lemma recordUserView_twice_already_viewed :
  is_Some (users seen_once !! "alice") ∧
  viewCount "panda1"
    (recordUserView "panda1" "alice"
       (recordUserView "panda1" "alice" seen_once).1).1
  ≠ viewCount "panda1" seen_once + 1.
Proof.
  split.
  - exists (push_viewed "panda1" alice). by vm_compute.
  - vm_compute. discriminate.
Qed.






End LedgerFacts.

(** ** The probe *)

Section ProberFacts.
Import Str Prober.

Lemma on_event_settled (r : result) (e : event) : on_event (Fulfilled r) e = Fulfilled r.
Proof. by destruct e. Qed.

Lemma on_events_settled (r : result) (es : list event) :
  fold_left on_event es (Fulfilled r) = Fulfilled r.
Proof. induction es as [|e es IH]; [done|]. simpl. by rewrite on_event_settled. Qed.

Lemma on_response_ok (st : Z) (ct : option string) :
  ok (on_response st ct) = true ↔
  200 ≤ st < 300 ∧ startsWith (toLowerCase (default EmptyString ct)) "image" = true.
Proof.
  unfold on_response. simpl. rewrite !andb_true_iff, Z.leb_le, Z.ltb_lt. tauto.
Qed.

(** C7. Whatever the runtime does with the call, the promise returned by
    [checkUrl] is fulfilled, never rejected or left pending, by a record
    with an [ok] field; an invalid URL, a throwing request, an error event
    or a timeout first gives [{ ok: false }]; and [ok] is [true] exactly
    when the first event is a response whose status is in [200,300) and
    whose lower-cased content type starts with [image]. *)
Theorem checkUrl_classifies (runtime : string → Z → attempt) (url : string)
    (timeout : Z) :
  ∃ r, checkUrl runtime url timeout = Fulfilled r ∧
    match runtime url timeout with
    | InvalidUrl | RequestThrows | Sent Error _ | Sent Timeout _ => r = failed
    | Sent (Response st ct) _ =>
        r = Result (ok r) (Some st) (Some (toLowerCase (default EmptyString ct)))
    end ∧
    (ok r = true ↔
     ∃ st ct later, runtime url timeout = Sent (Response st ct) later ∧
       200 ≤ st < 300 ∧
       startsWith (toLowerCase (default EmptyString ct)) "image" = true).
Proof.
  unfold checkUrl. destruct (runtime url timeout) as [| |[st ct| |] later]; simpl.
  - exists failed. split; [done|]. split; [done|]. split; [done|]. naive_solver.
  - exists failed. split; [done|]. split; [done|]. split; [done|]. naive_solver.
  - exists (on_response st ct). split; [apply on_events_settled|]. split; [done|].
    rewrite on_response_ok. split.
    + intros H. by exists st, ct, later.
    + by intros (st' & ct' & later' & [= <- <- <-] & H).
  - exists failed. split; [apply on_events_settled|]. split; [done|].
    split; [done|]. naive_solver.
  - exists failed. split; [apply on_events_settled|]. split; [done|].
    split; [done|]. naive_solver.
Qed.

End ProberFacts.

(** ** Searching in strings *)

Section StrFacts.
Import Str.
Local Open Scope nat_scope.

Lemma length_drop (n : nat) (s : string) :
  String.length (drop n s) = String.length s - n.
Proof.
  revert s. induction n as [|n IH]; intros [|c s]; simpl; done.
Qed.

Lemma prefix_length (pat s : string) :
  String.prefix pat s = true → String.length pat ≤ String.length s.
Proof.
  revert s. induction pat as [|a pat IH]; intros [|b s]; simpl; try done; try lia.
  destruct (Ascii.ascii_dec a b); [|done].
  intros H. apply IH in H. lia.
Qed.

Lemma ci_prefix_length (pat s : string) :
  ci_prefix pat s = true → String.length pat ≤ String.length s.
Proof.
  revert s. induction pat as [|a pat IH]; intros s; simpl; [lia|].
  destruct s as [|b s]; [done|]. rewrite andb_true_iff. intros [_ H].
  apply IH in H. simpl. lia.
Qed.

Lemma find_at_found (P : string → bool) (s : string) (pos from p : nat) :
  find_at P s pos from = Some p →
  from ≤ p ∧ pos ≤ p ∧ p ≤ pos + String.length s ∧ P (drop (p - pos) s) = true.
Proof.
  revert pos. induction s as [|c s IH]; intros pos; simpl.
  - destruct (from <=? pos) eqn:E; simpl; [|done].
    destruct (P EmptyString) eqn:EP; [|done]. intros [= <-].
    apply Nat.leb_le in E. rewrite Nat.sub_diag. simpl. auto with lia.
  - destruct (from <=? pos) eqn:E; simpl.
    + destruct (P (String c s)) eqn:EP.
      * intros [= <-]. apply Nat.leb_le in E. rewrite Nat.sub_diag. simpl.
        auto with lia.
      * intros H. apply IH in H as (H1 & H2 & H3 & H4).
        replace (p - pos) with (S (p - S pos)) by lia. simpl. auto with lia.
    + intros H. apply IH in H as (H1 & H2 & H3 & H4).
      replace (p - pos) with (S (p - S pos)) by lia. simpl. auto with lia.
Qed.

Lemma search_found (P : string → bool) (s : string) (from p : nat) :
  search P s from = Some p →
  from ≤ p ∧ p ≤ String.length s ∧ P (drop p s) = true.
Proof.
  intros H. apply find_at_found in H as (H1 & H2 & H3 & H4).
  rewrite Nat.sub_0_r in H4. auto with lia.
Qed.

Lemma indexOf_found (s pat : string) (from p : nat) :
  indexOf s pat from = Some p →
  from ≤ p ∧ p + String.length pat ≤ String.length s ∧
  String.prefix pat (drop p s) = true.
Proof.
  intros H. apply search_found in H as (H1 & H2 & H3).
  pose proof (prefix_length _ _ H3) as H4. rewrite length_drop in H4.
  auto with lia.
Qed.

Lemma div_tag_found (s : string) (from p : nat) :
  search div_tag s from = Some p →
  from ≤ p ∧
  (if div_open (drop p s) then p + 4 ≤ String.length s
   else p + 6 ≤ String.length s ∧ div_close (drop p s) = true).
Proof.
  intros H. apply search_found in H as (H1 & H2 & H3). split; [done|].
  unfold div_tag in H3. destruct (div_open (drop p s)) eqn:E.
  - unfold div_open in E. apply andb_true_iff in E as [E _].
    apply ci_prefix_length in E. rewrite length_drop in E. simpl in E. lia.
  - simpl in H3. split; [|done]. unfold div_close in H3.
    apply ci_prefix_length in H3. rewrite length_drop in H3. simpl in H3. lia.
Qed.

End StrFacts.

(** ** The extractor *)

Section ExtractorFacts.
Import Str Extractor.
Local Open Scope nat_scope.

Lemma close_scan_terminates (html : string) (fuel li : nat) (depth : Z) :
  li ≤ String.length html → String.length html - li < fuel →
  ∃ r, close_scan fuel html li depth = Some r ∧
       ∀ c, r = Some c → li < c ≤ String.length html.
Proof.
  revert li depth. induction fuel as [|fuel IH]; intros li depth Hli Hf; [lia|].
  simpl. destruct (search div_tag html li) as [p|] eqn:E.
  - apply div_tag_found in E as [H1 H2].
    destruct (div_open (drop p html)).
    + case_decide.
      * exists (Some (p + 4)). split; [done|]. intros c [= <-]. lia.
      * destruct (IH (p + 4) (depth + 1)%Z) as (r & Hr & Hb); [lia|lia|].
        exists r. split; [done|]. intros c Hc. apply Hb in Hc. lia.
    + destruct H2 as [H2 _]. case_decide.
      * exists (Some (p + 6)). split; [done|]. intros c [= <-]. lia.
      * destruct (IH (p + 6) (depth - 1)%Z) as (r & Hr & Hb); [lia|lia|].
        exists r. split; [done|]. intros c Hc. apply Hb in Hc. lia.
  - exists None. split; [done|]. intros c Hc. discriminate Hc.
Qed.

Lemma extract_loop_step (html : string) (fuel idx : nat) (blocks : list (nat * nat)) :
  extract_loop (S fuel) html idx blocks =
  match indexOf html "<div" idx with
  | None => Some blocks
  | Some openIdx =>
      match indexOf html ">" openIdx with
      | None => Some blocks
      | Some tagEnd =>
          if negb (has_container_class (slice html openIdx (tagEnd + 1)))
             || negb (has_data_id (slice html openIdx (tagEnd + 1)))
          then extract_loop fuel html (tagEnd + 1) blocks
          else
            match close_scan (S (String.length html)) html (tagEnd + 1) 1 with
            | None => None
            | Some None => Some blocks
            | Some (Some closeIdx) =>
                extract_loop fuel html closeIdx (blocks ++ [(openIdx, closeIdx)])
            end
      end
  end.
Proof. done. Qed.

Lemma extract_loop_terminates (html : string) (fuel idx : nat)
    (blocks : list (nat * nat)) :
  idx ≤ String.length html → String.length html - idx < fuel →
  ∃ r, extract_loop fuel html idx blocks = Some r.
Proof.
  revert idx blocks. induction fuel as [|fuel IH]; intros idx blocks Hi Hf; [lia|].
  rewrite extract_loop_step.
  destruct (indexOf html "<div" idx) as [o|] eqn:Eo; [|eauto].
  apply indexOf_found in Eo as (Ho1 & Ho2 & _). simpl in Ho2.
  destruct (indexOf html ">" o) as [t|] eqn:Et; [|eauto].
  apply indexOf_found in Et as (Ht1 & Ht2 & _). simpl in Ht2.
  destruct (negb _ || negb _).
  - apply IH; lia.
  - destruct (close_scan_terminates html (S (String.length html)) (t + 1) 1%Z)
      as (r & Hr & Hb); [lia|lia|].
    rewrite Hr. destruct r as [c|]; [|eauto].
    specialize (Hb c eq_refl). apply IH; lia.
Qed.



Lemma read_catalog_total (index_html : option string) :
  ∃ c, read_catalog index_html = Some c.
Proof.
  unfold read_catalog. destruct index_html as [html|]; [|eauto].
  destruct (match_gallery html) as [g|]; [|eauto].
  unfold extractImageContainers, extract_spans.
  destruct (extract_loop_terminates (galleryContent g)
              (S (String.length (galleryContent g))) 0 []) as [r ->]; [lia|lia|].
  simpl. eauto.
Qed.


(** A gallery section without image containers gives the empty sequence. *)
Lemma empty_gallery_is_no_error :
  ∃ g, read_catalog (Some page_with_empty_gallery) = Some (Blocks g []).
Proof. eexists. by vm_compute. Qed.


End ExtractorFacts.

(** ** The de-duplication passes *)

Section DedupFacts.
Import JS Str Dedup.

Variable runtime : string → Z → Prober.attempt.
Variable url_href : string → option string.

Local Abbreviation probe := (probe runtime).
Local Abbreviation normalizeSrc := (normalizeSrc url_href).
Local Abbreviation step1 := (step1 runtime).
Local Abbreviation step2 := (step2 url_href).
Local Abbreviation check1 := (check1 runtime).
Local Abbreviation results_from := (results_from runtime).
Local Abbreviation decide_block := (decide_block runtime url_href).
Local Abbreviation decisions := (decisions runtime url_href).
Local Abbreviation norms_after := (norms_after url_href).
Local Abbreviation dedup := (dedup runtime url_href).

Lemma or_empty_default (x : option string) : or_empty x = default EmptyString x.
Proof.
  unfold or_empty. destruct x as [s|]; simpl; [|done].
  by case_bool_decide as H.
Qed.

Lemma or_empty_falsy (x : option string) : truthy x = false → or_empty x = EmptyString.
Proof. unfold or_empty. by intros ->. Qed.

Lemma normalizeSrc_empty : normalizeSrc EmptyString = EmptyString.
Proof. done. Qed.

Lemma union_absorb (x : string) (X : gset string) : x ∈ X → {[x]} ∪ X = X.
Proof. set_solver. Qed.

(** One round of the first loop. *)
Lemma step1_check1 (st : state1) (block : string) :
  step1 st block =
  State1 (results st ++ [check1 (seenIds st) (seenSrcs st) block])
         ({[block_id block]} ∪ seenIds st)
         (srcs_after (seenIds st) (seenSrcs st) block).
Proof.
  unfold step1, Dedup.step1, check1, Dedup.check1, srcs_after.
  rewrite or_empty_default.
  destruct (decide (block_id block ∈ seenIds st)) as [Hid|Hid].
  { by rewrite (union_absorb _ _ Hid). }
  destruct (truthy (block_src block)) eqn:Ht; simpl.
  - case_bool_decide as Hs; simpl.
    + by rewrite (union_absorb _ _ Hs).
    + destruct (is_http _); simpl; [|done]. by destruct (Dedup.probe _ _).
  - done.
Qed.

Lemma pass1_results (blocks : list string) (st : state1) :
  results (fold_left step1 blocks st) =
  results st ++ results_from (seenIds st) (seenSrcs st) blocks.
Proof.
  revert st. induction blocks as [|b rest IH]; intros st; simpl.
  - by rewrite app_nil_r.
  - rewrite IH, step1_check1. simpl. by rewrite <- app_assoc.
Qed.

(** One round of the second loop on what the first loop pushed for the
    block, when both loops have seen the same ids. *)
Lemma step2_check1 (k : list string) (rm : list removal)
    (ids srcs norms : gset string) (block : string) :
  step2 (State2 k rm ids norms) (check1 ids srcs block) =
  match decide_block ids srcs norms block with
  | Kept =>
      State2 (k ++ [block]) rm ({[block_id block]} ∪ ids) (norms_after norms block)
  | Dropped r =>
      State2 k (rm ++ [Removal (block_id block) (or_empty (block_src block)) r])
             ({[block_id block]} ∪ ids) (norms_after norms block)
  end.
Proof.
  unfold step2, Dedup.step2, check1, Dedup.check1, decide_block,
    Dedup.decide_block, norms_after, Dedup.norms_after.
  rewrite <- !or_empty_default.
  destruct (decide (block_id block ∈ ids)) as [Hid|Hid]; [done|].
  destruct (truthy (block_src block)) eqn:Ht; simpl.
  - case_bool_decide as Hs; simpl; [done|].
    destruct (is_http _); simpl.
    + destruct (Dedup.probe _ _); simpl; [|done].
      rewrite decide_False by done.
      case_bool_decide as Hn; simpl; [|done].
      case_bool_decide as Hm; simpl; [|done].
      by rewrite (union_absorb _ _ Hm).
    + rewrite decide_False by done.
      case_bool_decide as Hn; simpl; [|done].
      case_bool_decide as Hm; simpl; [|done].
      by rewrite (union_absorb _ _ Hm).
  - rewrite (or_empty_falsy _ Ht). by rewrite !bool_decide_eq_false_2 by (by intros []).
Qed.

Lemma decisions_blocks (ids srcs norms : gset string) (blocks : list string) :
  fst <$> decisions ids srcs norms blocks = blocks.
Proof.
  revert ids srcs norms. induction blocks as [|b rest IH]; intros; simpl; [done|].
  by rewrite IH.
Qed.

Lemma pass2_decisions (blocks : list string) (k : list string) (rm : list removal)
    (ids srcs norms : gset string) :
  let st := fold_left step2 (results_from ids srcs blocks)
              (State2 k rm ids norms) in
  kept st = k ++ kept_of (decisions ids srcs norms blocks) ∧
  removed st = rm ++ removed_of (decisions ids srcs norms blocks) ∧
  seenFinalIds st = list_to_set (block_id <$> blocks) ∪ ids.
Proof.
  revert k rm ids srcs norms. induction blocks as [|b rest IH]; intros; simpl.
  - unfold st. simpl. rewrite !app_nil_r. split; [done|]. split; [done|]. set_solver.
  - unfold st. simpl. rewrite step2_check1.
    unfold kept_of, removed_of. simpl.
    destruct (decide_block ids srcs norms b) eqn:Ed; simpl.
    + edestruct IH as (-> & -> & ->). rewrite <- app_assoc. simpl.
      split; [done|]. split; [done|]. set_solver.
    + edestruct IH as (-> & -> & ->). rewrite <- app_assoc. simpl.
      split; [done|]. split; [done|]. set_solver.
Qed.

(** The two loops together take, block by block, the decisions of
    [decide_block]. *)
Lemma dedup_decisions (blocks : list string) :
  kept (dedup blocks) = kept_of (decisions ∅ ∅ ∅ blocks) ∧
  removed (dedup blocks) = removed_of (decisions ∅ ∅ ∅ blocks) ∧
  seenFinalIds (dedup blocks) = list_to_set (block_id <$> blocks).
Proof.
  unfold dedup, Dedup.dedup, pass1, pass2. rewrite pass1_results. simpl.
  destruct (pass2_decisions blocks [] [] ∅ ∅ ∅) as (H1 & H2 & H3).
  simpl in H1, H2, H3. rewrite H1, H2, H3. split; [done|]. split; [done|].
  set_solver.
Qed.

Lemma kept_of_sublist (ds : list (string * decision)) :
  sublist (kept_of ds) (fst <$> ds).
Proof.
  induction ds as [|[b d] ds IH]; simpl; [constructor|].
  unfold kept_of. simpl. destruct d; simpl.
  - by constructor.
  - by constructor.
Qed.

(** C2, amended. The two loops decide each block in a fixed order:
    (1) an id met in an earlier block: dropped, [duplicate-id]; (2) else a
    non-empty source equal, as written, to the source of an earlier block
    that did not repeat an id: dropped, [duplicate-src]; (3) else no source:
    dropped, [no-src]; (4) else a source with a network scheme that the
    probe does not report ok: dropped, [unreachable]; (5) else, the source
    being local or reported ok, a non-empty normalized source equal to the
    normalized source of any earlier block: dropped, [duplicate-src];
    otherwise the block is kept.  Every block adds its id to the ids met.
    The kept blocks are a subsequence of the input, in its order. *)
Theorem dedup_decides_in_order (blocks : list string) :
  kept (dedup blocks) = kept_of (decisions ∅ ∅ ∅ blocks) ∧
  removed (dedup blocks) = removed_of (decisions ∅ ∅ ∅ blocks) ∧
  fst <$> decisions ∅ ∅ ∅ blocks = blocks ∧
  sublist (kept (dedup blocks)) blocks.
Proof.
  destruct (dedup_decisions blocks) as (Hk & Hr & _).
  split; [done|]. split; [done|]. split; [apply decisions_blocks|].
  rewrite Hk. rewrite <- (decisions_blocks ∅ ∅ ∅ blocks) at 2.
  apply kept_of_sublist.
Qed.

Lemma decide_block_Kept (ids srcs norms : gset string) (block : string) :
  decide_block ids srcs norms block = Kept ↔
  (block_id block ∉ ids) ∧
  truthy (block_src block) = true ∧
  (or_empty (block_src block) ∉ srcs) ∧
  (is_http (or_empty (block_src block)) = true →
   probe (or_empty (block_src block)) = true) ∧
  (normalizeSrc (or_empty (block_src block)) = EmptyString ∨
   normalizeSrc (or_empty (block_src block)) ∉ norms).
Proof.
  unfold decide_block, Dedup.decide_block.
  destruct (decide (block_id block ∈ ids)) as [Hid|Hid]; [naive_solver|].
  destruct (truthy (block_src block)) eqn:Ht; simpl; [|naive_solver].
  case_bool_decide as Hs; simpl; [naive_solver|].
  destruct (is_http _) eqn:Eh; simpl.
  - destruct (Dedup.probe _ _) eqn:Ep; simpl; [|naive_solver].
    case_bool_decide as Hn; simpl; [|naive_solver].
    case_bool_decide as Hm; simpl; naive_solver.
  - case_bool_decide as Hn; simpl; [|naive_solver].
    case_bool_decide as Hm; simpl; naive_solver.
Qed.

Lemma srcs_after_mono (ids ids' srcs srcs' : gset string) (block : string) :
  ids' ⊆ ids → srcs' ⊆ srcs → block_id block ∉ ids →
  srcs_after ids' srcs' block ⊆ srcs_after ids srcs block.
Proof.
  intros Hi Hs Hid. unfold srcs_after.
  rewrite !decide_False by set_solver. destruct (truthy _); set_solver.
Qed.

Lemma srcs_after_incl (ids srcs : gset string) (block : string) :
  srcs ⊆ srcs_after ids srcs block.
Proof. unfold srcs_after. case_decide; [done|]. destruct (truthy _); set_solver. Qed.

Lemma norms_after_mono (norms norms' : gset string) (block : string) :
  norms' ⊆ norms → norms_after norms' block ⊆ norms_after norms block.
Proof. intros H. unfold norms_after, Dedup.norms_after. case_bool_decide; set_solver. Qed.

Lemma norms_after_incl (norms : gset string) (block : string) :
  norms ⊆ norms_after norms block.
Proof. unfold norms_after, Dedup.norms_after. case_bool_decide; set_solver. Qed.

Lemma kept_of_all_kept (bs : list string) :
  kept_of ((λ b, (b, Kept)) <$> bs) = bs ∧ removed_of ((λ b, (b, Kept)) <$> bs) = [].
Proof.
  unfold kept_of, removed_of.
  induction bs as [|b bs [IH1 IH2]]; simpl; [done|]. split; [by f_equal|done].
Qed.

(** Blocks that were kept are kept again, also when fewer ids and sources
    have been met before them. *)
Lemma decisions_kept_again (blocks : list string)
    (ids srcs norms ids' srcs' norms' : gset string) :
  ids' ⊆ ids → srcs' ⊆ srcs → norms' ⊆ norms →
  decisions ids' srcs' norms' (kept_of (decisions ids srcs norms blocks)) =
  (λ b, (b, Kept)) <$> kept_of (decisions ids srcs norms blocks).
Proof.
  revert ids srcs norms ids' srcs' norms'.
  induction blocks as [|b rest IH]; intros ids srcs norms ids' srcs' norms' Hi Hs Hn;
    [done|].
  simpl. unfold kept_of. simpl. fold (kept_of (decisions ({[block_id b]} ∪ ids)
      (srcs_after ids srcs b) (norms_after norms b) rest)).
  destruct (decide_block ids srcs norms b) eqn:Ed; simpl.
  - apply decide_block_Kept in Ed as (H1 & H2 & H3 & H4 & H5).
    f_equal.
    + f_equal. apply decide_block_Kept. set_solver.
    + apply IH; [set_solver| |by apply norms_after_mono].
      by apply srcs_after_mono.
  - apply IH.
    + set_solver.
    + etrans; [done|]. apply srcs_after_incl.
    + etrans; [done|]. apply norms_after_incl.
Qed.

(** C9. With the probe answering the same way for the same source,
    running the two loops on the blocks they kept keeps every one of them,
    in the same order, and removes none. *)
Theorem dedup_idempotent (blocks : list string) :
  kept (dedup (kept (dedup blocks))) = kept (dedup blocks) ∧
  removed (dedup (kept (dedup blocks))) = [].
Proof.
  destruct (dedup_decisions (kept (dedup blocks))) as (-> & -> & _).
  destruct (dedup_decisions blocks) as (-> & _ & _).
  rewrite decisions_kept_again by done.
  apply kept_of_all_kept.
Qed.

End DedupFacts.

(** C2, as stated, fails: the second block has a new id and a normalized
    source met before, and a probe that fails; the specification's order
    drops it as [duplicate-src], the loops report [unreachable]. *)
Lemma dedup_probes_before_normalized_lookup :
  Dedup.removed (Dedup.dedup Prober.example_runtime Dedup.example_href
                   [Dedup.block_a; Dedup.block_b])
  = [Dedup.Removal "b" "http://h/x.png?v=2" Dedup.unreachable] ∧
  Dedup.spec_decisions Prober.example_runtime Dedup.example_href ∅ ∅
    [Dedup.block_a; Dedup.block_b]
  = [(Dedup.block_a, Dedup.Kept);
     (Dedup.block_b, Dedup.Dropped Dedup.duplicate_src)] ∧
  Dedup.removed (Dedup.dedup Prober.example_runtime Dedup.example_href
                   [Dedup.block_a; Dedup.block_b])
  ≠ Dedup.removed_of
      (Dedup.spec_decisions Prober.example_runtime Dedup.example_href ∅ ∅
         [Dedup.block_a; Dedup.block_b]).
Proof.
  split; [by vm_compute|]. split; [by vm_compute|].
  vm_compute. discriminate.
Qed.

(** ** Reconciliation *)

Section ReconcilerFacts.
Import JS Str Reconciler.
Local Open Scope nat_scope.

Lemma normalize_zero : normalize zero_raw = zero_raw.
Proof. done. Qed.

Lemma normalize_idemp (e : raw_entry) : normalize (normalize e) = normalize e.
Proof. done. Qed.


Lemma add_missing_pair (m : gmap string raw_entry) (c : nat) (id : string) :
  add_missing (m, c) id =
  match m !! id with
  | None => (<[id := zero_raw]> m, S c)
  | Some e => (<[id := normalize e]> m, c)
  end.
Proof. done. Qed.

Lemma remove_extra_pair (ids : list string) (m : gmap string raw_entry) (c : nat)
    (id : string) :
  remove_extra ids (m, c) id =
  if decide (id ∈ ids) then (m, c) else (delete id m, S c).
Proof. done. Qed.

Lemma add_missing_fold (ids : list string) (m : gmap string raw_entry) (c : nat) :
  (∀ k, (fold_left add_missing ids (m, c)).1 !! k =
        if decide (k ∈ ids) then Some (settled (m !! k)) else m !! k) ∧
  (fold_left add_missing ids (m, c)).2 =
    c + size (list_to_set ids ∖ dom m : gset string).
Proof.
  revert m c. induction ids as [|id rest IH]; intros m c.
  - cbn [fold_left fst snd]. split.
    + intros k. case_decide; [set_solver|done].
    + replace (list_to_set [] ∖ dom m : gset string) with (∅ : gset string) by set_solver.
      rewrite size_empty. lia.
  - cbn [fold_left]. rewrite add_missing_pair.
    destruct (m !! id) as [e|] eqn:E.
    + destruct (IH (<[id := normalize e]> m) c) as [IH1 IH2]. split.
      * intros k. rewrite IH1.
        destruct (decide (k = id)) as [->|Hne];
          [rewrite lookup_insert_eq, E|rewrite lookup_insert_ne by done];
          repeat case_decide; simpl; try done; set_solver.
      * rewrite IH2. f_equal. f_equal. rewrite dom_insert_L.
        apply elem_of_dom_2 in E. set_solver.
    + destruct (IH (<[id := zero_raw]> m) (S c)) as [IH1 IH2]. split.
      * intros k. rewrite IH1.
        destruct (decide (k = id)) as [->|Hne];
          [rewrite lookup_insert_eq, E|rewrite lookup_insert_ne by done];
          repeat case_decide; simpl; try done; set_solver.
      * rewrite IH2. rewrite dom_insert_L. apply not_elem_of_dom in E.
        replace (list_to_set (id :: rest) ∖ dom m : gset string)
          with ({[id]} ∪ (list_to_set rest ∖ ({[id]} ∪ dom m)) : gset string).
        -- rewrite (size_union (C:=gset string) {[id]}) by set_solver.
           rewrite size_singleton. lia.
        -- apply set_eq. intros x. destruct (decide (x = id)); set_solver.
Qed.

Lemma remove_extra_fold (ids l : list string) (m : gmap string raw_entry) (c : nat) :
  (∀ k, (fold_left (remove_extra ids) l (m, c)).1 !! k =
        if decide (k ∈ l ∧ k ∉ ids) then None else m !! k) ∧
  (fold_left (remove_extra ids) l (m, c)).2 =
    c + length (filter (λ k, k ∉ ids) l).
Proof.
  revert m c. induction l as [|id rest IH]; intros m c.
  - cbn [fold_left fst snd]. split; [|simpl; lia].
    intros k. case_decide; [set_solver|done].
  - cbn [fold_left]. rewrite remove_extra_pair, filter_cons.
    destruct (decide (id ∈ ids)) as [Hin|Hin].
    + rewrite decide_False by (by intros []). destruct (IH m c) as [IH1 IH2].
      split; [|done]. intros k. rewrite IH1.
      destruct (decide (k ∈ rest ∧ k ∉ ids)) as [Hk|Hk].
      * by rewrite decide_True by set_solver.
      * rewrite decide_False; [done|]. intros [Hk1 Hk2]. apply Hk.
        split; [|done]. apply elem_of_cons in Hk1 as [->|]; done.
    + rewrite decide_True by done.
      destruct (IH (delete id m) (S c)) as [IH1 IH2].
      split; [|simpl; lia]. intros k. rewrite IH1.
      destruct (decide (k ∈ rest ∧ k ∉ ids)) as [Hk|Hk].
      * by rewrite decide_True by set_solver.
      * destruct (decide (k = id)) as [->|Hne].
        -- rewrite lookup_delete_eq. by rewrite decide_True by set_solver.
        -- rewrite lookup_delete_ne by done. rewrite decide_False; [done|].
           intros [Hk1 Hk2]. apply Hk. split; [|done].
           apply elem_of_cons in Hk1 as [->|]; done.
Qed.

Lemma elem_of_keys (m : gmap string raw_entry) (k : string) :
  k ∈ keys m ↔ is_Some (m !! k).
Proof.
  unfold keys. rewrite list_elem_of_fmap. split.
  - intros ([k' e] & -> & H). apply elem_of_map_to_list in H. eauto.
  - intros [e H]. exists (k, e). split; [done|]. by apply elem_of_map_to_list.
Qed.

Lemma reconcile_lookup (K : list string) (views : gmap string raw_entry) (k : string) :
  (reconcile K views).1 !! k =
  if decide (k ∈ K) then Some (settled (views !! k)) else None.
Proof.
  unfold reconcile. cbn [fst].
  destruct (add_missing_fold K views 0) as [A1 _].
  set (v1 := (fold_left add_missing K (views, 0)).1) in *.
  destruct (remove_extra_fold K (keys v1) v1 0) as [R1 _].
  rewrite R1, A1. destruct (decide (k ∈ K)) as [Hk|Hk].
  - by rewrite decide_False by (by intros []).
  - destruct (views !! k) as [e|] eqn:E.
    + rewrite decide_True; [done|]. split; [|done].
      apply elem_of_keys. rewrite A1, decide_False by done. eauto.
    + by case_decide.
Qed.

Lemma reconcile_counts (K : list string) (views : gmap string raw_entry) :
  added (reconcile K views).2 = size (list_to_set K ∖ dom views : gset string) ∧
  removed (reconcile K views).2 = size (dom views ∖ list_to_set K : gset string).
Proof.
  unfold reconcile. cbn [snd added removed].
  destruct (add_missing_fold K views 0) as [A1 A2].
  set (v1 := (fold_left add_missing K (views, 0)).1) in *.
  destruct (remove_extra_fold K (keys v1) v1 0) as [_ R2].
  split; [rewrite A2; lia|].
  rewrite R2. simpl. rewrite <- (size_list_to_set (C:=gset string)).
  - f_equal. apply set_eq. intros k.
    rewrite elem_of_list_to_set, list_elem_of_filter, elem_of_keys, A1.
    rewrite elem_of_difference, elem_of_dom, elem_of_list_to_set.
    destruct (decide (k ∈ K)); naive_solver.
  - apply NoDup_filter, NoDup_fst_map_to_list.
Qed.


(** The specification's scenario for C1: entries [a], [b], [c] and the
    catalog [a], [b]. *)
Lemma reconcile_abc :
  (reconcile ["a"; "b"] abc).2 = Summary 2 0 1 ∧
  (reconcile ["a"; "b"] abc).1 !! "c" = None ∧
  (reconcile ["a"; "b"] abc).1 !! "a" = abc !! "a" ∧
  (reconcile ["a"; "b"] abc).1 !! "b" = abc !! "b".
Proof. repeat split; by vm_compute. Qed.

(** The [views.json] update at the end of [fix-images.js] keeps the
    entries of the ids met by the second loop, as they are, and creates
    none. *)
Lemma prune_views_lookup (seen : gset string) (viewsData : gmap string raw_entry)
    (k : string) :
  (k ∈ seen → prune_views seen viewsData !! k = viewsData !! k) ∧
  (k ∉ seen → prune_views seen viewsData !! k = None).
Proof.
  unfold prune_views.
  apply (set_fold_ind_L (λ r X, (k ∈ X → r !! k = viewsData !! k) ∧
                                (k ∉ X → r !! k = None))).
  - split; [set_solver|done].
  - intros x X r Hx [IH1 IH2]. destruct (decide (k = x)) as [->|Hne].
    + split; [|set_solver]. intros _.
      destruct (viewsData !! x) eqn:E; [by rewrite lookup_insert_eq|].
      by apply IH2.
    + assert ((match viewsData !! x with
               | Some e => <[x:=e]> r
               | None => r
               end) !! k = r !! k) as ->.
      { destruct (viewsData !! x); [by rewrite lookup_insert_ne|done]. }
      split; intros Hk; [apply IH1|apply IH2]; set_solver.
Qed.

(** Run after [fix-images.js], the script arrives at the ledger it would
    have produced from the ledger before the update, as long as its ids
    are among the ids met by the second loop. *)
Lemma reconcile_after_prune (K : list string) (seen : gset string)
    (views : gmap string raw_entry) :
  (∀ k, k ∈ K → k ∈ seen) →
  (reconcile K (prune_views seen views)).1 = (reconcile K views).1.
Proof.
  intros HK. apply map_eq. intros k. rewrite !reconcile_lookup.
  case_decide as Hk; [|done].
  by rewrite (proj1 (prune_views_lookup seen views k) (HK k Hk)).
Qed.

(** [main] always ends. *)
Lemma main_ends (runtime : string → Z → Prober.attempt)
    (url_href : string → option string) (index_html : option string)
    (views_json : option (gmap string raw_entry)) :
  is_Some (main runtime url_href index_html views_json).
Proof.
  unfold main.
  destruct (read_catalog_total index_html) as [c ->].
  destruct c as [st|g [|b bs]]; eauto.
Qed.

End ReconcilerFacts.

(** The update of [fix-images.js] looks entries up by [seenFinalIds],
    which also holds the ids of dropped blocks: the entry of a block
    dropped as unreachable stays in [views.json]. *)
Lemma prune_keeps_entry_of_dropped_block :
  Dedup.kept (Dedup.dedup Prober.example_runtime Dedup.example_href
                [Dedup.block_a; Dedup.block_b]) = [Dedup.block_a] ∧
  Reconciler.prune_views
    (Dedup.seenFinalIds (Dedup.dedup Prober.example_runtime Dedup.example_href
                           [Dedup.block_a; Dedup.block_b]))
    Reconciler.abc !! "b" = Reconciler.abc !! "b" ∧
  is_Some (Reconciler.abc !! "b").
Proof. split; [by vm_compute|]. split; [by vm_compute|]. vm_compute. eauto. Qed.

(* ===================================================================== *)
(** * Part III: further properties of the server and the scripts *)
(* ===================================================================== *)

(** ** The server: view counts and heart toggles *)

Section LedgerFrames.
Import JS Ledger.

Lemma post_heart_viewCount (id userId : option string) (s : state) (j : string) :
  viewCount j (post_heart id userId s).1 = viewCount j s.
Proof.
  destruct (post_heart_cases id userId s) as [->|Hc]; [done|].
  destruct Hc as (i & u & r & -> & -> & _ & _ & _ & Hd & _).
  unfold viewCount at 1. unfold entry_at. rewrite Hd.
  destruct (decide (i = j)) as [->|Hne].
  - by rewrite lookup_insert_eq.
  - by rewrite lookup_insert_ne.
Qed.

Lemma post_view_viewCount (id userId : option string) (s : state) (j : string) :
  viewCount j (post_view id userId s).1 = viewCount j s ∨
  (id = Some j ∧ viewCount j (post_view id userId s).1 = viewCount j s + 1).
Proof.
  unfold post_view. destruct id as [i|]; [|by left].
  destruct (truthy (Some i)); [|by left]. cbn [fst].
  assert (viewCount j (set_data (ensure i (data s)) s) = viewCount j s) as H0.
  { unfold viewCount. simpl. by rewrite entry_at_ensure. }
  assert (∀ us f1 f2,
    viewCount j (State (alter add_view i (ensure i (data s))) us f1 f2)
      = viewCount j s ∨
    (Some i = Some j ∧
     viewCount j (State (alter add_view i (ensure i (data s))) us f1 f2)
      = viewCount j s + 1)) as H1.
  { intros us f1 f2. unfold viewCount. cbn [data].
    rewrite entry_at_alter by apply ensure_is_Some.
    case_decide; subst; simpl; rewrite entry_at_ensure, ?or0_id; auto. }
  destruct (signed_in _ _) as [[u r]|]; [case_decide|]; [by left|apply H1|apply H1].
Qed.

Lemma handle_viewCount (r : request) (s : state) (j : string) :
  viewCount j (handle r s).1 = viewCount j s ∨
  viewCount j (handle r s).1 = viewCount j s + 1.
Proof.
  destruct r as [u e p|u e p| |i u|i u|i u]; simpl.
  - left. unfold viewCount. by rewrite post_register_data.
  - left. by rewrite post_login_state.
  - by left.
  - left. unfold viewCount. simpl. by rewrite entry_at_ensure.
  - destruct (post_view_viewCount i u s j) as [H|[_ H]]; auto.
  - left. apply post_heart_viewCount.
Qed.

(** X1. Whatever requests are served, no view count goes down, and a
    count rises by at most one per request. *)
Theorem view_counts_grow_slowly (rs : list request) (s : state) (j : string) :
  viewCount j s ≤ viewCount j (serve rs s) ≤ viewCount j s + Z.of_nat (length rs).
Proof.
  revert s. induction rs as [|r rs IH]; intros s; simpl; [lia|].
  change (fold_left _ rs ?t) with (serve rs t).
  specialize (IH (handle r s).1).
  destruct (handle_viewCount r s j) as [H|H]; rewrite H in IH; lia.
Qed.

Lemma toggled_set_twice (u : string) (x : gset string) :
  toggled_set u (toggled_set u x) = x.
Proof.
  unfold toggled_set. destruct (decide (u ∈ x)) as [H1|H1].
  - rewrite (bool_decide_eq_true_2 (u ∈ x)) by done.
    rewrite bool_decide_eq_false_2 by set_solver.
    apply set_eq. intros y. destruct (decide (y = u)); set_solver.
  - rewrite (bool_decide_eq_false_2 (u ∈ x)) by done.
    rewrite bool_decide_eq_true_2 by set_solver. set_solver.
Qed.

Lemma toggled_list_twice (u id : string) (x : gset string) (l : list string)
    (j : string) :
  j ∈ toggled_list u id (toggled_set u x) (toggled_list u id x l) ↔
  if decide (j = id) then u ∈ x else j ∈ l.
Proof.
  unfold toggled_list, toggled_set. destruct (decide (u ∈ x)) as [Hin|Hin].
  - rewrite (bool_decide_eq_true_2 (u ∈ x)) by done.
    rewrite bool_decide_eq_false_2
      by (rewrite elem_of_difference, elem_of_singleton; tauto).
    rewrite elem_of_array_from_set, elem_of_app, list_elem_of_filter,
      list_elem_of_singleton.
    case_decide; subst; tauto.
  - rewrite (bool_decide_eq_false_2 (u ∈ x)) by done.
    rewrite bool_decide_eq_true_2
      by (rewrite elem_of_union, elem_of_singleton; tauto).
    rewrite list_elem_of_filter, elem_of_array_from_set, elem_of_app,
      list_elem_of_singleton.
    case_decide; subst; tauto.
Qed.

Lemma heartedBy_insert (i j : string) (e : entry) (s : state) (d : gmap string entry) :
  d = <[i := e]> (data s) →
  usersHearted (entry_at j d) = if decide (i = j) then usersHearted e else heartedBy j s.
Proof.
  intros ->. unfold heartedBy, entry_at. case_decide; subst.
  - by rewrite lookup_insert_eq.
  - by rewrite lookup_insert_ne.
Qed.

(** X2. A heart toggle is its own inverse on the ledger: after two toggles
    of the same id by the same registered user the id's [usersHearted] set
    is the one before, the heart count is its size, no view count has
    changed, and the id is in the user's [hearted] list exactly when the
    user was in the set; the other ids of the list are as before. *)
Theorem toggleHeart_twice (id u : string) (r : user) (s : state) :
  id ≠ EmptyString → u ≠ EmptyString → users s !! u = Some r →
  heartedBy id (toggleHeart id u (toggleHeart id u s).1).1 = heartedBy id s ∧
  heartCount id (toggleHeart id u (toggleHeart id u s).1).1
    = Z.of_nat (size (heartedBy id s)) ∧
  (∀ j, viewCount j (toggleHeart id u (toggleHeart id u s).1).1 = viewCount j s) ∧
  ∃ r2, users (toggleHeart id u (toggleHeart id u s).1).1 !! u = Some r2 ∧
    ∀ j, j ∈ hearted r2 ↔
         if decide (j = id) then u ∈ heartedBy id s else j ∈ hearted r.
Proof.
  intros Hi Hu Hr. unfold toggleHeart.
  destruct (post_heart_signed_in id u r s Hi Hu Hr) as [Hd1 Hu1].
  set (s1 := (post_heart (Some id) (Some u) s).1) in *.
  set (r1 := set_hearted (toggled_list u id (heartedBy id s) (hearted r)) r) in *.
  assert (users s1 !! u = Some r1) as Hr1 by (by rewrite Hu1, lookup_insert_eq).
  assert (heartedBy id s1 = toggled_set u (heartedBy id s)) as Hs1.
  { unfold heartedBy at 1. rewrite (heartedBy_insert id id _ s _ Hd1).
    by rewrite decide_True. }
  destruct (post_heart_signed_in id u r1 s1 Hi Hu Hr1) as [Hd2 Hu2].
  set (s2 := (post_heart (Some id) (Some u) s1).1) in *.
  assert (heartedBy id s2 = heartedBy id s) as Hs2.
  { unfold heartedBy at 1. rewrite (heartedBy_insert id id _ s1 _ Hd2).
    rewrite decide_True by done. simpl. by rewrite Hs1, toggled_set_twice. }
  split; [done|]. split.
  { unfold heartCount, entry_at. rewrite Hd2, lookup_insert_eq. simpl.
    by rewrite Hs1, toggled_set_twice. }
  split.
  { intros j. unfold s2, s1. by rewrite !post_heart_viewCount. }
  exists (set_hearted (toggled_list u id (heartedBy id s1) (hearted r1)) r1).
  split; [by rewrite Hu2, lookup_insert_eq|].
  intros j. simpl. rewrite Hs1. apply toggled_list_twice.
Qed.

Lemma toggleHeart_twice_witness :
  heartedBy "panda1"
    (toggleHeart "panda1" "alice" (toggleHeart "panda1" "alice" one_user).1).1
  = heartedBy "panda1" one_user.
Proof.
  assert ("panda1" ≠ EmptyString) as Hi by done.
  assert ("alice" ≠ EmptyString) as Hu by done.
  assert (users one_user !! "alice" = Some alice) as Hr by (by vm_compute).
  destruct (toggleHeart_twice "panda1" "alice" alice one_user Hi Hu Hr) as [H _].
  exact H.
Defined.

End LedgerFrames.

(** ** The server: accounts, files and bounds *)

Section LedgerInvariants.
Import JS Ledger.

Lemma serve_keeps (P : state → Prop) :
  (∀ r s, P s → P (handle r s).1) → ∀ rs s, P s → P (serve rs s).
Proof.
  intros HP rs. induction rs as [|r rs IH]; intros s Hs; simpl; [done|].
  apply IH. by apply HP.
Qed.







Lemma NoDup_array_from_set (l : list string) : NoDup (array_from_set l).
Proof.
  unfold array_from_set.
  assert (∀ acc, NoDup acc →
    NoDup (fold_left (λ acc x, if decide (x ∈ acc) then acc else acc ++ [x]) l acc))
    as H; [|apply H; constructor].
  induction l as [|x l IH]; intros acc Hacc; simpl; [done|].
  apply IH. case_decide; [done|]. apply NoDup_app. split; [done|].
  split; [|apply NoDup_singleton]. intros y Hy Hx.
  apply list_elem_of_singleton in Hx. by subst.
Qed.

Lemma post_view_user (id userId : option string) (s : state) (v : string) (r' : user) :
  users (post_view id userId s).1 !! v = Some r' →
  ∃ r, users s !! v = Some r ∧ hearted r' = hearted r ∧
       (viewed r' = viewed r ∨ ∃ i, (i ∉ viewed r) ∧ viewed r' = viewed r ++ [i]).
Proof.
  unfold post_view. destruct id as [i|]; [|by eauto].
  destruct (truthy (Some i)); [|by eauto]. cbn [fst].
  destruct (signed_in _ _) as [[u r]|] eqn:Hu; [case_decide as Hv|];
    [by eauto| |by eauto].
  apply signed_in_Some in Hu as (-> & _ & Hr). cbn [users set_data] in Hr.
  cbn [users set_data set_users saveData saveUsers].
  destruct (decide (u = v)) as [<-|Hne].
  - rewrite lookup_insert_eq. intros [= <-]. exists r. split; [done|].
    split; [done|]. right. by exists i.
  - rewrite lookup_insert_ne by done. eauto.
Qed.

Lemma handle_lists_NoDup (q : request) (s : state) :
  (∀ u r, users s !! u = Some r → NoDup (viewed r) ∧ NoDup (hearted r)) →
  ∀ u r, users (handle q s).1 !! u = Some r → NoDup (viewed r) ∧ NoDup (hearted r).
Proof.
  intros H. destruct q as [u e p|u e p| |i u|i u|i u]; simpl.
  - unfold post_register. destruct u as [u|], e as [e|], p as [p|]; try done.
    destruct (_ && _); [|done]. destruct (users s !! u) eqn:Hu; [done|].
    cbn [fst users set_users saveUsers]. intros v r.
    destruct (decide (u = v)) as [<-|Hne].
    + rewrite lookup_insert_eq. intros [= <-]. simpl. split; constructor.
    + rewrite lookup_insert_ne by done. apply H.
  - by rewrite post_login_state.
  - done.
  - done.
  - intros v r' Hv. apply post_view_user in Hv as (r & Hr & Hh & Hw).
    destruct (H v r Hr) as [H1 H2]. rewrite Hh. split; [|done].
    destruct Hw as [->|(j & Hj & ->)]; [done|].
    apply NoDup_app. split; [done|]. split; [|apply NoDup_singleton].
    intros y Hy Hx. apply list_elem_of_singleton in Hx. by subst.
  - destruct (post_heart_cases i u s) as [->|Hc]; [done|].
    destruct Hc as (j & v & r & -> & -> & _ & _ & Hr & _ & Hus).
    rewrite Hus. intros w r'. destruct (decide (v = w)) as [<-|Hne].
    + rewrite lookup_insert_eq. intros [= <-]. simpl.
      destruct (H v r Hr) as [H1 H2]. split; [done|].
      unfold toggled_list. case_bool_decide.
      * by apply NoDup_filter.
      * apply NoDup_array_from_set.
    + rewrite lookup_insert_ne by done. apply H.
Qed.

(** X6. The [viewed] and [hearted] lists of the users never hold an id
    twice: on a server started with empty stores after any requests, and
    after any requests from stores in which it is so. *)
Theorem user_lists_without_duplicates :
  (∀ (rs : list request) (u : string) (r : user),
     users (serve rs initial) !! u = Some r →
     NoDup (viewed r) ∧ NoDup (hearted r)) ∧
  (∀ (rs : list request) (s : state),
     (∀ u r, users s !! u = Some r → NoDup (viewed r) ∧ NoDup (hearted r)) →
     ∀ u r, users (serve rs s) !! u = Some r →
            NoDup (viewed r) ∧ NoDup (hearted r)).
Proof.
  split.
  - intros rs.
    apply (serve_keeps (λ s, ∀ u r, users s !! u = Some r →
                                    NoDup (viewed r) ∧ NoDup (hearted r))).
    + intros q s. apply handle_lists_NoDup.
    + intros u r Hu. change (users initial) with (∅ : gmap string user) in Hu.
      by rewrite lookup_empty in Hu.
  - intros rs.
    apply (serve_keeps (λ s, ∀ u r, users s !! u = Some r →
                                    NoDup (viewed r) ∧ NoDup (hearted r))).
    intros q s. apply handle_lists_NoDup.
Qed.

End LedgerInvariants.

(** ** The de-duplication passes: what the kept blocks are *)

Section DedupKept.
Import JS Str Dedup.

Variable runtime : string → Z → Prober.attempt.
Variable url_href : string → option string.

Local Abbreviation probe := (probe runtime).
Local Abbreviation normalizeSrc := (normalizeSrc url_href).
Local Abbreviation decide_block := (decide_block runtime url_href).
Local Abbreviation decisions := (decisions runtime url_href).
Local Abbreviation norms_after := (norms_after url_href).
Local Abbreviation dedup := (dedup runtime url_href).

(** The source of a block as the second loop reads it, and its normal
    form. *)
Local Abbreviation source := (λ b : string, or_empty (block_src b)).
Local Abbreviation norm := (λ b : string, normalizeSrc (or_empty (block_src b))).

Lemma kept_of_cons (b : string) (d : decision) (ds : list (string * decision)) :
  kept_of ((b, d) :: ds) =
  match d with Kept => b :: kept_of ds | Dropped _ => kept_of ds end.
Proof. by destruct d. Qed.

Lemma removed_of_cons (b : string) (d : decision) (ds : list (string * decision)) :
  removed_of ((b, d) :: ds) =
  match d with
  | Kept => removed_of ds
  | Dropped r => Removal (block_id b) (or_empty (block_src b)) r :: removed_of ds
  end.
Proof. by destruct d. Qed.

Lemma srcs_after_fresh (ids srcs : gset string) (b : string) :
  block_id b ∉ ids → truthy (block_src b) = true →
  srcs_after ids srcs b = {[source b]} ∪ srcs.
Proof. intros Hi Ht. unfold srcs_after. by rewrite decide_False, Ht. Qed.

(** What holds of every block kept after the sets [ids], [srcs], [norms]. *)
Lemma kept_of_decisions (blocks : list string) (ids srcs norms : gset string)
    (b : string) :
  b ∈ kept_of (decisions ids srcs norms blocks) →
  b ∈ blocks ∧ (block_id b ∉ ids) ∧ (source b ∉ srcs) ∧
  (norm b = EmptyString ∨ norm b ∉ norms) ∧
  truthy (block_src b) = true ∧
  (is_http (source b) = true → probe (source b) = true).
Proof.
  revert ids srcs norms. induction blocks as [|c rest IH]; intros ids srcs norms.
  - intros H. by apply elem_of_nil in H.
  - cbn [Dedup.decisions]. rewrite kept_of_cons.
    destruct (decide_block ids srcs norms c) eqn:Ed.
    + apply decide_block_Kept in Ed as (H1 & H2 & H3 & H4 & H5).
      intros [->|Hb]%elem_of_cons.
      * split; [left|]. done.
      * apply IH in Hb as (G1 & G2 & G3 & G4 & G5 & G6).
        split; [by right|]. split; [set_solver|].
        split; [pose proof (srcs_after_incl runtime url_href ids srcs c); set_solver|].
        split; [|done].
        destruct G4 as [G4|G4]; [by left|right].
        pose proof (norms_after_incl runtime url_href norms c). set_solver.
    + intros Hb. apply IH in Hb as (G1 & G2 & G3 & G4 & G5 & G6).
      split; [by right|]. split; [set_solver|].
      split; [pose proof (srcs_after_incl runtime url_href ids srcs c); set_solver|].
      split; [|done].
      destruct G4 as [G4|G4]; [by left|right].
      pose proof (norms_after_incl runtime url_href norms c). set_solver.
Qed.

Lemma kept_of_NoDup (blocks : list string) (ids srcs norms : gset string) :
  NoDup (block_id <$> kept_of (decisions ids srcs norms blocks)) ∧
  NoDup (source <$> kept_of (decisions ids srcs norms blocks)) ∧
  NoDup (filter (λ n, n ≠ EmptyString)
           (norm <$> kept_of (decisions ids srcs norms blocks))).
Proof.
  revert ids srcs norms. induction blocks as [|c rest IH]; intros ids srcs norms.
  - cbn. repeat split; constructor.
  - cbn [Dedup.decisions]. rewrite kept_of_cons.
    destruct (decide_block ids srcs norms c) eqn:Ed; [|apply IH].
    apply decide_block_Kept in Ed as (H1 & H2 & H3 & H4 & H5).
    destruct (IH ({[block_id c]} ∪ ids) (srcs_after ids srcs c)
                 (norms_after norms c)) as (I1 & I2 & I3).
    rewrite !fmap_cons. split; [|split].
    + constructor; [|done]. intros Hin.
      apply list_elem_of_fmap in Hin as (b & Hb & Hin).
      apply kept_of_decisions in Hin as (_ & G & _). set_solver.
    + constructor; [|done]. intros Hin.
      apply list_elem_of_fmap in Hin as (b & Hb & Hin).
      apply kept_of_decisions in Hin as (_ & _ & G & _).
      rewrite srcs_after_fresh in G by done. simpl in Hb. set_solver.
    + rewrite filter_cons. case_decide as Hn; [|done].
      constructor; [|done]. intros Hin.
      apply list_elem_of_filter in Hin as [_ Hin].
      apply list_elem_of_fmap in Hin as (b & Hb & Hin).
      apply kept_of_decisions in Hin as (_ & _ & _ & G & _).
      unfold norms_after, Dedup.norms_after in G.
      rewrite bool_decide_eq_true_2 in G by done.
      simpl in Hb. rewrite <- Hb in G. destruct G as [G|G]; [done|set_solver].
Qed.

(** X7. No two kept blocks share an id, a source as written, or a
    non-empty normalized source. *)
Theorem kept_blocks_are_distinct (blocks : list string) :
  NoDup (block_id <$> kept (dedup blocks)) ∧
  NoDup (source <$> kept (dedup blocks)) ∧
  NoDup (filter (λ n, n ≠ EmptyString) (norm <$> kept (dedup blocks))).
Proof.
  destruct (dedup_decisions runtime url_href blocks) as (-> & _ & _).
  apply kept_of_NoDup.
Qed.

(** X8. Every kept block is one of the input blocks, has an image source,
    and, when the source has a network scheme, a probe that reported ok. *)
Theorem kept_blocks_are_sound (blocks : list string) :
  Forall (λ b, b ∈ blocks ∧ truthy (block_src b) = true ∧
               (is_http (source b) = true → probe (source b) = true))
         (kept (dedup blocks)).
Proof.
  destruct (dedup_decisions runtime url_href blocks) as (-> & _ & _).
  apply Forall_forall. intros b Hb.
  apply kept_of_decisions in Hb as (G1 & _ & _ & _ & G5 & G6). done.
Qed.

Lemma decisions_account (blocks : list string) (ids srcs norms : gset string) :
  (length (kept_of (decisions ids srcs norms blocks))
   + length (removed_of (decisions ids srcs norms blocks)))%nat = length blocks ∧
  (list_to_set (block_id <$> kept_of (decisions ids srcs norms blocks)) : gset string)
  ∪ list_to_set (removed_id <$> removed_of (decisions ids srcs norms blocks))
  = list_to_set (block_id <$> blocks).
Proof.
  revert ids srcs norms. induction blocks as [|c rest IH]; intros ids srcs norms.
  - cbn. split; [done|set_solver].
  - cbn [Dedup.decisions]. rewrite kept_of_cons, removed_of_cons.
    destruct (IH ({[block_id c]} ∪ ids) (srcs_after ids srcs c)
                 (norms_after norms c)) as (I1 & I2).
    destruct (decide_block ids srcs norms c).
    + split; [cbn [length]; lia|].
      rewrite !fmap_cons, !list_to_set_cons, <- I2. set_solver.
    + split; [cbn [length]; lia|].
      rewrite !fmap_cons, !list_to_set_cons, <- I2. cbn [removed_id].
      set_solver.
Qed.

(** X9. Every block is accounted for: a block is either kept or listed
    in [removed], so the two lists have as many elements as the input, and
    the ids found in them, like [seenFinalIds], are the ids of the input
    blocks. *)
Theorem every_block_is_kept_or_removed (blocks : list string) :
  (length (kept (dedup blocks)) + length (removed (dedup blocks)))%nat
    = length blocks ∧
  (list_to_set (block_id <$> kept (dedup blocks)) : gset string)
  ∪ list_to_set (removed_id <$> removed (dedup blocks))
    = list_to_set (block_id <$> blocks) ∧
  seenFinalIds (dedup blocks) = list_to_set (block_id <$> blocks).
Proof.
  destruct (dedup_decisions runtime url_href blocks) as (-> & -> & ->).
  destruct (decisions_account blocks ∅ ∅ ∅) as [H1 H2]. done.
Qed.

Lemma decisions_all_kept (blocks : list string) (ids srcs norms : gset string) :
  NoDup (block_id <$> blocks) →
  NoDup (source <$> blocks) →
  NoDup (filter (λ n, n ≠ EmptyString) (norm <$> blocks)) →
  Forall (λ b, (block_id b ∉ ids) ∧ (source b ∉ srcs) ∧ (norm b ∉ norms) ∧
               truthy (block_src b) = true ∧
               (is_http (source b) = true → probe (source b) = true)) blocks →
  kept_of (decisions ids srcs norms blocks) = blocks ∧
  removed_of (decisions ids srcs norms blocks) = [].
Proof.
  revert ids srcs norms. induction blocks as [|c rest IH];
    intros ids srcs norms Hi Hs Hn Hall; [done|].
  rewrite !fmap_cons in *. apply NoDup_cons in Hi as [Hi1 Hi2].
  apply NoDup_cons in Hs as [Hs1 Hs2].
  apply Forall_cons in Hall as [(A1 & A2 & A3 & A4 & A5) Hall].
  cbn [Dedup.decisions]. rewrite kept_of_cons, removed_of_cons.
  assert (decide_block ids srcs norms c = Kept) as ->.
  { apply decide_block_Kept. auto 10. }
  destruct (IH ({[block_id c]} ∪ ids) (srcs_after ids srcs c)
               (norms_after norms c)) as [-> ->]; try done.
  - rewrite filter_cons in Hn. case_decide; [|done]. by apply NoDup_cons in Hn as [_ ?].
  - apply Forall_forall. intros b Hb.
    rewrite Forall_forall in Hall. destruct (Hall b Hb) as (B1 & B2 & B3 & B4 & B5).
    split; [|split; [|split]]; [| | |done].
    + apply not_elem_of_union. split; [|done]. rewrite elem_of_singleton.
      intros Heq. apply Hi1. rewrite <- Heq. by apply list_elem_of_fmap_2.
    + rewrite srcs_after_fresh by done.
      apply not_elem_of_union. split; [|done]. rewrite elem_of_singleton.
      intros Heq. apply Hs1. simpl. rewrite <- Heq.
      by apply (list_elem_of_fmap_2 (λ b, or_empty (block_src b))).
    + unfold norms_after, Dedup.norms_after. case_bool_decide as Hc; [|done].
      apply not_elem_of_union. split; [|done]. rewrite elem_of_singleton.
      intros Heq. rewrite filter_cons, decide_True in Hn by done.
      apply NoDup_cons in Hn as [Hn _]. apply Hn.
      apply list_elem_of_filter. split; [done|].
      simpl. rewrite <- Heq.
      by apply (list_elem_of_fmap_2 (λ b, normalizeSrc (or_empty (block_src b)))).
Qed.

(** X10. Nothing is dropped without cause: when the blocks have pairwise
    different ids, sources and non-empty normalized sources, each has a
    source, and every source with a network scheme is reported ok, all
    blocks are kept, in their order, and [removed] is empty. *)
Theorem clean_catalog_is_kept (blocks : list string) :
  NoDup (block_id <$> blocks) →
  NoDup (source <$> blocks) →
  NoDup (filter (λ n, n ≠ EmptyString) (norm <$> blocks)) →
  Forall (λ b, truthy (block_src b) = true ∧
               (is_http (source b) = true → probe (source b) = true)) blocks →
  kept (dedup blocks) = blocks ∧ removed (dedup blocks) = [].
Proof.
  intros Hi Hs Hn Hall.
  destruct (dedup_decisions runtime url_href blocks) as (-> & -> & _).
  apply decisions_all_kept; try done.
  eapply Forall_impl; [done|]. intros b [H1 H2]. simpl.
  split; [set_solver|]. split; [set_solver|]. split; [set_solver|]. done.
Qed.

End DedupKept.

Lemma clean_catalog_is_kept_witness :
  Dedup.kept (Dedup.dedup Prober.example_runtime Dedup.example_href
                [Dedup.block_a; Dedup.block_d]) = [Dedup.block_a; Dedup.block_d]
  ∧ Dedup.removed (Dedup.dedup Prober.example_runtime Dedup.example_href
                     [Dedup.block_a; Dedup.block_d]) = [].
Proof.
  apply (clean_catalog_is_kept Prober.example_runtime Dedup.example_href).
  - apply (bool_decide_unpack _). vm_compute. exact I.
  - apply (bool_decide_unpack _). vm_compute. exact I.
  - apply (bool_decide_unpack _). vm_compute. exact I.
  - apply List.Forall_cons; [|apply List.Forall_cons; [|apply List.Forall_nil]].
    + split; [vm_compute; reflexivity|]. intros _. vm_compute. reflexivity.
    + split; [vm_compute; reflexivity|]. intros H. vm_compute in H. discriminate.
Defined.

(** ** Substrings *)

Section SliceFacts.
Import Str.
Local Open Scope nat_scope.

Lemma append_cons (c : ascii) (x y : string) :
  String c x +:+ y = String c (x +:+ y).
Proof. done. Qed.

Lemma append_empty (y : string) : EmptyString +:+ y = y.
Proof. done. Qed.

Lemma append_assoc (x y z : string) : (x +:+ y) +:+ z = x +:+ (y +:+ z).
Proof. induction x as [|c x IH]; [done|]. by rewrite !append_cons, IH. Qed.

Lemma length_append (x y : string) :
  String.length (x +:+ y) = String.length x + String.length y.
Proof.
  induction x as [|c x IH]; [done|]. rewrite append_cons. simpl. by rewrite IH.
Qed.

Lemma drop_append_length (x y : string) : drop (String.length x) (x +:+ y) = y.
Proof. induction x as [|c x IH]; [by destruct y|]. by rewrite append_cons. Qed.

Lemma drop_add (a b : nat) (s : string) : drop (a + b) s = drop b (drop a s).
Proof.
  revert s. induction a as [|a IH]; intros s; [done|].
  destruct s as [|c s]; simpl; [by destruct b|]. apply IH.
Qed.

Lemma slice_0 (s : string) (n : nat) : slice s 0 n = substring 0 n s.
Proof. unfold slice. by rewrite Nat.sub_0_r. Qed.

Lemma substring_0_drop (n : nat) (s : string) :
  n ≤ String.length s → substring 0 n s +:+ drop n s = s.
Proof.
  revert s. induction n as [|n IH]; intros [|c s] Hn; simpl in *; try done; try lia.
  rewrite append_cons. f_equal. apply IH. lia.
Qed.

Lemma length_substring (n : nat) (s : string) :
  n ≤ String.length s → String.length (substring 0 n s) = n.
Proof.
  revert s. induction n as [|n IH]; intros [|c s] Hn; simpl in *; try done; try lia.
  f_equal. apply IH. lia.
Qed.

End SliceFacts.

(** ** What [main] writes *)

Section GalleryFacts.
Import JS Str Extractor.
Local Open Scope nat_scope.

Lemma until_gt_append (s run rest : string) :
  until_gt s = Some (run, rest) → s = run +:+ String ">" rest.
Proof.
  revert run. induction s as [|c s IH]; intros run; simpl; [done|].
  case_bool_decide as Hc.
  - intros [= <- <-]. by rewrite Hc.
  - destruct (until_gt s) as [[r t]|]; [|done].
    intros [= <- <-]. rewrite append_cons. f_equal. by apply IH.
Qed.

Lemma until_section_close_append (s content close : string) :
  until_section_close s = Some (content, close) →
  s = content +:+ close
      +:+ drop (String.length content + String.length close) s.
Proof.
  revert content. induction s as [|c s IH]; intros content.
  - simpl. done.
  - cbn [until_section_close].
    destruct (ci_prefix "</section>" (String c s)) eqn:E.
    + intros [= <- <-].
      pose proof (ci_prefix_length _ _ E) as Hl.
      change (String.length "</section>") with 10 in Hl.
      rewrite slice_0, length_substring by done. cbn [String.length Nat.add].
      rewrite !append_empty. by rewrite substring_0_drop.
    + destruct (until_section_close s) as [[r k]|]; [|done].
      intros [= <- <-]. rewrite append_cons. simpl. f_equal. by apply IH.
Qed.

Lemma gallery_at_append (s o c k : string) :
  gallery_at s = Some (o, c, k) →
  s = o +:+ c +:+ k
      +:+ drop (String.length o + String.length c + String.length k) s.
Proof.
  unfold gallery_at. destruct (ci_prefix "<section" s) eqn:E; [|done].
  destruct (until_gt (drop 8 s)) as [[attrs rest]|] eqn:Eg; [|done].
  destruct (first_match gallery_class_at attrs); [|done].
  destruct (until_section_close rest) as [[content close]|] eqn:Ec; [|done].
  intros [= <- <- <-].
  apply until_gt_append in Eg.
  assert (8 + String.length attrs + 1 ≤ String.length s) as Hlen.
  { pose proof (f_equal String.length Eg) as Hd.
    rewrite length_drop, length_append in Hd. simpl in Hd. lia. }
  apply until_section_close_append in Ec.
  assert (drop (8 + String.length attrs + 1) s = rest) as Hrest.
  { rewrite <- Nat.add_assoc, drop_add, Eg.
    replace (String.length attrs + 1) with (String.length (attrs +:+ ">"))
      by (rewrite length_append; done).
    change (String ">" rest) with (">" +:+ rest).
    by rewrite <- append_assoc, drop_append_length. }
  rewrite slice_0, length_substring by done.
  rewrite <- (Nat.add_assoc (8 + String.length attrs + 1)), drop_add, Hrest.
  rewrite <- Ec, <- Hrest. by rewrite substring_0_drop.
Qed.

Lemma match_gallery_append (html : string) (g : gallery) :
  match_gallery html = Some g →
  index g ≤ String.length html ∧
  html = slice html 0 (index g) +:+ galleryOpen g +:+ galleryContent g
         +:+ galleryClose g
         +:+ drop (index g + (String.length (galleryOpen g)
                              + String.length (galleryContent g)
                              + String.length (galleryClose g))) html.
Proof.
  unfold match_gallery.
  destruct (search _ html 0) as [p|] eqn:Es; [|done].
  apply search_found in Es as (_ & Hp & _).
  destruct (gallery_at (drop p html)) as [[[o c] k]|] eqn:Eg; [|done].
  intros [= <-]. cbn [index galleryOpen galleryContent galleryClose].
  apply gallery_at_append in Eg. split; [done|].
  rewrite drop_add, <- Eg. by rewrite slice_0, substring_0_drop.
Qed.

Lemma read_catalog_Blocks (html : string) (g : gallery) (blocks : list string) :
  read_catalog (Some html) = Some (Blocks g blocks) →
  match_gallery html = Some g ∧
  extractImageContainers (galleryContent g) = Some blocks.
Proof.
  unfold read_catalog. destruct (match_gallery html) as [g'|]; [|done].
  destruct (extractImageContainers (galleryContent g')) as [bs|] eqn:E; [|done].
  by intros [= <- <-].
Qed.

End GalleryFacts.

Section MainFacts.
Import JS Str Extractor Dedup Reconciler.
Local Open Scope nat_scope.

Variable runtime : string → Z → Prober.attempt.
Variable url_href : string → option string.

(** X11. When the gallery section has blocks, [main] writes the page
    back with the text before the section, the section's opening and
    closing tags and the text after the section as they were: only the
    content between the two tags is replaced, by the kept blocks, one per
    line. *)
Theorem main_rewrites_the_gallery_only (html : string)
    (views_json : option (gmap string raw_entry)) (g : gallery)
    (blocks : list string) :
  read_catalog (Some html) = Some (Blocks g blocks) → blocks ≠ [] →
  ∃ before after newViews,
    String.length before = index g ∧
    html = before +:+ galleryOpen g +:+ galleryContent g +:+ galleryClose g
           +:+ after ∧
    main runtime url_href (Some html) views_json =
      Some (Written
              (before +:+ galleryOpen g
               +:+ (newline
                    +:+ String.concat newline (kept (dedup runtime url_href blocks))
                    +:+ newline)
               +:+ galleryClose g +:+ after)
              newViews (dedup runtime url_href blocks)).
Proof.
  intros Hc Hne. unfold main. rewrite Hc.
  apply read_catalog_Blocks in Hc as [Hg _].
  apply match_gallery_append in Hg as [Hi Hh].
  destruct blocks as [|b bs]; [done|].
  eexists (slice html 0 (index g)), _, _.
  split; [by rewrite slice_0, length_substring|]. split; [exact Hh|]. done.
Qed.

(** X12. The update of [views.json] at the end of [main] keeps, as they
    are, the entries whose id is the id of a block of the gallery, kept or
    dropped, and no other entry; it creates none. *)
Theorem main_views_update (html : string) (views : gmap string raw_entry)
    (g : gallery) (blocks : list string) :
  read_catalog (Some html) = Some (Blocks g blocks) → blocks ≠ [] →
  ∃ newHtml newViews d,
    main runtime url_href (Some html) (Some views)
      = Some (Written newHtml (Some newViews) d) ∧
    ∀ id, newViews !! id =
          if decide (id ∈ block_id <$> blocks) then views !! id else None.
Proof.
  intros Hc Hne. unfold main. rewrite Hc.
  destruct blocks as [|b bs]; [done|].
  eexists _, _, _. split; [done|]. intros id.
  destruct (dedup_decisions runtime url_href (b :: bs)) as (_ & _ & ->).
  destruct (prune_views_lookup (list_to_set (block_id <$> b :: bs)) views id)
    as [H1 H2].
  case_decide as Hin.
  - apply H1. by apply elem_of_list_to_set.
  - apply H2. by rewrite elem_of_list_to_set.
Qed.

End MainFacts.

Lemma main_rewrites_the_gallery_only_witness :
  ∃ before after newViews,
    String.length before = Extractor.index Extractor.gallery_of_page ∧
    Extractor.page_with_gallery =
      before +:+ Extractor.galleryOpen Extractor.gallery_of_page
      +:+ Extractor.galleryContent Extractor.gallery_of_page
      +:+ Extractor.galleryClose Extractor.gallery_of_page +:+ after ∧
    Reconciler.main Prober.example_runtime Dedup.example_href
      (Some Extractor.page_with_gallery) None =
      Some (Reconciler.Written
              (before +:+ Extractor.galleryOpen Extractor.gallery_of_page
               +:+ (Reconciler.newline
                    +:+ String.concat Reconciler.newline
                          (Dedup.kept (Dedup.dedup Prober.example_runtime
                                         Dedup.example_href
                                         Extractor.blocks_of_page))
                    +:+ Reconciler.newline)
               +:+ Extractor.galleryClose Extractor.gallery_of_page +:+ after)
              newViews
              (Dedup.dedup Prober.example_runtime Dedup.example_href
                 Extractor.blocks_of_page)).
Proof.
  apply (main_rewrites_the_gallery_only Prober.example_runtime Dedup.example_href
           Extractor.page_with_gallery None Extractor.gallery_of_page
           Extractor.blocks_of_page).
  - vm_compute. reflexivity.
  - discriminate.
Defined.

Lemma main_views_update_witness :
  ∃ newHtml newViews d,
    Reconciler.main Prober.example_runtime Dedup.example_href
      (Some Extractor.page_with_gallery) (Some Reconciler.abc)
      = Some (Reconciler.Written newHtml (Some newViews) d) ∧
    ∀ id, newViews !! id =
          if decide (id ∈ Dedup.block_id <$> Extractor.blocks_of_page)
          then Reconciler.abc !! id else None.
Proof.
  apply (main_views_update Prober.example_runtime Dedup.example_href
           Extractor.page_with_gallery Reconciler.abc Extractor.gallery_of_page
           Extractor.blocks_of_page).
  - vm_compute. reflexivity.
  - discriminate.
Defined.

(** ** The reconciler run again *)

Section ReconcilerRuns.
Import JS Str Reconciler.
Local Open Scope nat_scope.

Lemma settled_again (o : option raw_entry) : settled (Some (settled o)) = settled o.
Proof. by destruct o. Qed.

Lemma reconcile_summary (K : list string) (views : gmap string raw_entry) :
  (reconcile K views).2 =
  Summary (length K) (size (list_to_set K ∖ dom views : gset string))
          (size (dom views ∖ list_to_set K : gset string)).
Proof.
  destruct (reconcile_counts K views) as [Ha Hr].
  destruct (reconcile K views) as [m [s a r]] eqn:E.
  assert (s = length K) as -> by (by injection E).
  simpl in *. by rewrite Ha, Hr.
Qed.

Lemma reconcile_dom (K : list string) (views : gmap string raw_entry) :
  dom (reconcile K views).1 = list_to_set K.
Proof.
  apply set_eq. intros k. rewrite elem_of_dom, reconcile_lookup, elem_of_list_to_set.
  case_decide; [by eauto|]. split; [by intros []|done].
Qed.

(** X13. The reconciler is idempotent: run again on the object it wrote,
    with the same page, it writes the same object and reports nothing
    added and nothing removed. *)
Theorem reconcile_twice (K : list string) (views : gmap string raw_entry) :
  reconcile K (reconcile K views).1 =
  ((reconcile K views).1, Summary (length K) 0 0).
Proof.
  apply injective_projections; cbn [fst snd].
  - apply map_eq. intros k. rewrite !reconcile_lookup.
    case_decide; [|done]. by rewrite settled_again.
  - rewrite reconcile_summary, reconcile_dom.
    by rewrite difference_diag_L, size_empty.
Qed.

End ReconcilerRuns.
